(** * VoiceChatApp: the session controller of [src/App.tsx]

    The component of [App.tsx] keeps three boolean flags and an error
    message as React state, two refs (the current [MediaRecorder] and the
    array of audio chunks) and talks to four host facilities: the
    microphone ([getUserMedia]), the recorder ([MediaRecorder]), [fetch]
    and [speechSynthesis].  Every handler of the component is embedded
    below as a function on an explicit state record; every [await] of the
    source is a point where the handler is suspended and resumed later by
    an event of the host, so the asynchronous handlers are split at their
    awaits and the interleaving of the pieces is given by a step function
    over events.

    Conventions of the model:
    - the state updates made by one piece of a handler are committed
      together, and every handler reads the flags of the latest commit
      (React batches the updates of one task and re-renders before the
      next event is handled);
    - whether a recorder can be constructed and started on a microphone
      stream is a matter of the host, not of the call: the constructor
      throws only where no recorder has been constructed before, and
      [start()] only where no recorder has started before;
    - a recorder fires its [stop] event some time after [stop()] was
      called on it, possibly after further chunks of data;
    - [speechSynthesis] speaks its queue in order, reports the end or the
      failure of the utterance at its head, and reports nothing for the
      utterances removed by [cancel()];
    - what a remote service answers is not constrained in any way: a body
      is any JSON value, also where the source expects a string, and it
      is turned into text where the host does so (the template literal of
      line 74 and the constructor of the utterance, line 158). *)

From Stdlib Require Import String Ascii Strings.Byte ZArith List Bool Lia DecimalString.
From stdpp Require Import base option list.

Import ListNotations.
Local Open Scope string_scope.
Set Warnings "-register-all".

(** ** Values of the host language *)

Module JS.

(** What [response.json()] can deliver, plus [undefined].  A number is
    kept as mantissa and binary exponent; the code only ever asks whether
    a number is zero. *)
Inductive value : Type :=
| Undefined
| Null
| Bool (b : bool)
| Num (mantissa exponent : Z)
| Str (s : string)
| Arr (items : list value)
| Obj (fields : list (string * value)).

(** Exceptions that reach a [catch] of the component. *)
Inductive exn : Type :=
| TypeError                     (* property read on null / undefined,
                                   or a value that has no text *)
| SyntaxError                   (* [response.json()] on a body that is not JSON *)
| NetworkError                  (* [fetch] rejected *)
| NotAllowedError               (* [getUserMedia] rejected *)
| InvalidStateError             (* [MediaRecorder.stop()] when inactive *)
| ApiError (prefix : string) (errorData : value)
| Error (message : string).

(** A computation that returns or throws. *)
Inductive completion (A : Type) : Type :=
| Return (a : A)
| Throw (e : exn).
Arguments Return {A} a.
Arguments Throw {A} e.

Definition bind {A B} (c : completion A) (k : A -> completion B) : completion B :=
  match c with
  | Return a => k a
  | Throw e => Throw e
  end.

(** [try { c } catch (error) { throw h }] *)
Definition try_rethrow {A} (c : completion A) (h : exn) : completion A :=
  match c with
  | Return a => Return a
  | Throw _ => Throw h
  end.

Definition of_nat (n : nat) : value := Num (Z.of_nat n) 0.

(** ToBoolean *)
Definition truthy (v : value) : bool :=
  match v with
  | Undefined | Null => false
  | Bool b => b
  | Num m _ => negb (m =? 0)%Z
  | Str s => negb (String.eqb s "")
  | Arr _ | Obj _ => true
  end.

Definition nullish (v : value) : bool :=
  match v with
  | Undefined | Null => true
  | _ => false
  end.

(** [v === 0] *)
Definition is_zero (v : value) : bool :=
  match v with
  | Num m _ => (m =? 0)%Z
  | _ => false
  end.

(** [a || b] *)
Definition or_else (a b : value) : value := if truthy a then a else b.

Fixpoint lookup_field (name : string) (fields : list (string * value)) : value :=
  match fields with
  | [] => Undefined
  | (k, v) :: rest => if String.eqb k name then v else lookup_field name rest
  end.

Definition char_at (s : string) (i : nat) : value :=
  match String.get i s with
  | Some c => Str (String c EmptyString)
  | None => Undefined
  end.

Definition has_field (name : string) (fields : list (string * value)) : bool :=
  existsb (fun entry => String.eqb (fst entry) name) fields.

(** ToString, as far as the component depends on it: whether the text
    of a value is the empty string.  The text of an array is that of its
    elements joined by commas, [null] and [undefined] counting as empty
    elements; an object takes its text from [Object.prototype.toString]
    unless it has an entry of its own under that name, which is never
    callable in a parsed body: the conversion then falls back on
    [valueOf], which yields the object itself, and throws. *)
Fixpoint text_empty (v : value) : completion bool :=
  match v with
  | Undefined | Null | Bool _ | Num _ _ => Return false
  | Str s => Return (String.eqb s "")
  | Obj fields =>
      if has_field "toString" fields then Throw TypeError else Return false
  | Arr items =>
      let element (x : value) : completion bool :=
        if nullish x then Return true else text_empty x in
      match items with
      | [] => Return true
      | [x] => element x
      | x :: rest =>
          bind (element x) (fun _ =>
          bind ((fix others (l : list value) : completion bool :=
                   match l with
                   | [] => Return true
                   | y :: l' => bind (element y) (fun _ => others l')
                   end) rest) (fun _ =>
          Return false))
      end
  end.

(** [v.name] for a name that is not an array index.  None of the names
    read by the component is defined on a built-in prototype except
    [length]. *)
Definition get (v : value) (name : string) : completion value :=
  match v with
  | Undefined | Null => Throw TypeError
  | Obj fields => Return (lookup_field name fields)
  | Arr items =>
      Return (if String.eqb name "length" then of_nat (List.length items) else Undefined)
  | Str s =>
      Return (if String.eqb name "length" then of_nat (String.length s) else Undefined)
  | Bool _ | Num _ _ => Return Undefined
  end.

(** [v[i]] *)
Definition index (v : value) (i : nat) : completion value :=
  match v with
  | Undefined | Null => Throw TypeError
  | Arr items => Return (nth i items Undefined)
  | Str s => Return (char_at s i)
  | Obj fields => Return (lookup_field (NilZero.string_of_uint (Nat.to_uint i)) fields)
  | Bool _ | Num _ _ => Return Undefined
  end.

(** [v?.name] and [v?.[i]]: a nullish receiver yields [undefined]. *)
Definition get_opt (v : value) (name : string) : completion value :=
  if nullish v then Return Undefined else get v name.

Definition index_opt (v : value) (i : nat) : completion value :=
  if nullish v then Return Undefined else index v i.

(** What [fetch] resolves to: the status flag and the outcome of
    [response.json()]. *)
Record response : Type := {
  ok : bool;
  json : completion value
}.

End JS.

Import JS.

Notation "'let*' x ':=' c 'in' k" := (JS.bind c (fun x => k))
  (at level 10, x name, c at level 100, k at level 200).

(** ** Transcription Client: [convertSpeechToText], lines 14-60 *)

Definition blob : Type := list byte.

(** Lines 17-19: the bytes of the buffer are turned into a string of
    characters with the same codes, and that string is base64-encoded. *)
Definition binary_string (buffer : list byte) : string :=
  fold_left (fun data b => data ++ String (ascii_of_byte b) EmptyString) buffer "".

Definition base64_alphabet : string :=
  "ABCDEFGHIJKLMNOPQRSTUVWXYZabcdefghijklmnopqrstuvwxyz0123456789+/".

Definition base64_digit (n : N) : ascii :=
  match String.get (N.to_nat n) base64_alphabet with
  | Some c => c
  | None => "="%char
  end.

Fixpoint base64_groups (codes : list N) : string :=
  match codes with
  | [] => ""
  | [a] =>
      let n := (a * 65536)%N in
      String (base64_digit (n / 262144))
        (String (base64_digit ((n / 4096) mod 64)) "==")
  | [a; b] =>
      let n := (a * 65536 + b * 256)%N in
      String (base64_digit (n / 262144))
        (String (base64_digit ((n / 4096) mod 64))
           (String (base64_digit ((n / 64) mod 64)) "="))
  | a :: b :: c :: rest =>
      let n := (a * 65536 + b * 256 + c)%N in
      String (base64_digit (n / 262144))
        (String (base64_digit ((n / 4096) mod 64))
           (String (base64_digit ((n / 64) mod 64))
              (String (base64_digit (n mod 64)) (base64_groups rest))))
  end.

(** [btoa]: every character of a [string] has a code below 256, so the
    host function cannot raise its range error here. *)
Definition btoa (s : string) : string :=
  base64_groups (List.map N_of_ascii (list_ascii_of_string s)).

(** Lines 21-32. *)
Record RecognizeRequest : Type := {
  encoding : string;
  sampleRateHertz : Z;
  audioChannelCount : Z;
  languageCode : string;
  model : string;
  content : string
}.

Definition requestBody (audioBlob : blob) : RecognizeRequest :=
  {| encoding := "WEBM_OPUS";
     sampleRateHertz := 48000;
     audioChannelCount := 1;
     languageCode := "en-US";
     model := "default";
     content := btoa (binary_string audioBlob) |}.

Definition stt_failure : exn := Error "Failed to convert speech to text".

(** Lines 34-59, from the point where [fetch] has settled. *)
Definition transcription_result (fetched : completion response) : completion value :=
  try_rethrow
    (let* response := fetched in
     if negb (ok response) then
       let* errorData := json response in
       Throw (ApiError "Speech API error: " errorData)
     else
       let* data := json response in
       let* results := get data "results" in
       let* empty :=
         (if negb (truthy results) then Return true
          else let* len := get results "length" in Return (is_zero len)) in
       if (empty : bool) then Throw (Error "No transcription results received")
       else
         let* first := index results 0 in
         let* alternatives := get first "alternatives" in
         let* best := index alternatives 0 in
         let* transcript := get best "transcript" in
         Return (or_else transcript (Str "")))
    stt_failure.

Definition convertSpeechToText
    (fetch : RecognizeRequest -> completion response) (audioBlob : blob)
  : completion value :=
  transcription_result (fetch (requestBody audioBlob)).

(** ** Response Client: [getGeminiResponse], lines 62-92 *)

Definition prompt_instruction : string :=
  "Respond to this in a natural, spoken manner. Minimize use of numbering, unless absolutely needed. ".

(** Lines 71-77: the single text part is the template literal
    [`${prompt_instruction}${text}`].  The request keeps the interpolated
    value as it is passed; [text_empty] tells whether its text is empty. *)
Record GenerateRequest : Type := {
  instruction : string;
  spoken : value
}.

Definition generateBody (text : value) : GenerateRequest :=
  {| instruction := prompt_instruction; spoken := text |}.

Definition fallback_reply : string := "Sorry, I could not generate a response.".

Definition ai_failure : exn := Error "Failed to get AI response".

(** Line 87, left operand:
    [data.candidates?.[0]?.content?.parts?.[0]?.text]. *)
Definition candidate_text (data : value) : completion value :=
  let* candidates := get data "candidates" in
  let* candidate := index_opt candidates 0 in
  let* body := get_opt candidate "content" in
  let* parts := get_opt body "parts" in
  let* part := index_opt parts 0 in
  get_opt part "text".

(** Lines 63-91, from the point where [fetch] has settled. *)
Definition generation_result (fetched : completion response) : completion value :=
  try_rethrow
    (let* response := fetched in
     if negb (ok response) then
       let* errorData := json response in
       Throw (ApiError "Gemini API error: " errorData)
     else
       let* data := json response in
       let* text := candidate_text data in
       Return (or_else text (Str fallback_reply)))
    ai_failure.

(** A request is only sent when the template literal of line 74 could be
    evaluated; it sits inside the [try], so a text that cannot be
    converted makes the client fail like everything else. *)
Definition getGeminiResponse
    (fetch : GenerateRequest -> completion response) (text : value)
  : completion value :=
  try_rethrow
    (let* _ := text_empty text in
     generation_result (fetch (generateBody text)))
    ai_failure.

(** ** The component state and the host around it *)

(** A [MediaRecorder]: [rec_stopping] is the interval between the call of
    [stop()] and the delivery of the [stop] event, when the recorder
    already reports itself inactive; [rec_unstarted] is a recorder whose
    [start()] threw, which reports itself inactive without ever having
    recorded. *)
Inductive recorder_state : Type :=
  rec_inactive | rec_recording | rec_stopping | rec_unstarted.

Record recorder : Type := {
  rec_state : recorder_state;
  tracks_live : bool
}.

(** The continuation of an [onstop] handler suspended at one of its awaits. *)
Inductive task : Type := AwaitTranscription | AwaitGeneration.

(** What the component asked of its collaborators, oldest first. *)
Inductive call : Type :=
| CallTranscription (request : RecognizeRequest)
| CallGeneration (request : GenerateRequest)
| CallSpeak (text : value).

Record state : Type := {
  (* React state, lines 7-10 *)
  isRecording : bool;
  isPlaying : bool;
  isProcessing : bool;
  error : option string;
  (* refs, lines 11-12 *)
  mediaRecorderRef : option nat;
  audioChunksRef : list blob;
  (* host *)
  micRequests : nat;            (* [getUserMedia] promises not yet settled *)
  recorders : list recorder;    (* every recorder constructed so far *)
  inflight : list task;         (* suspended [onstop] handlers *)
  utterances : list value;      (* queue of [speechSynthesis] *)
  calls : list call
}.

Definition initial : state :=
  {| isRecording := false; isPlaying := false; isProcessing := false;
     error := None; mediaRecorderRef := None; audioChunksRef := [];
     micRequests := 0; recorders := []; inflight := []; utterances := [];
     calls := [] |}.

Definition setIsRecording (b : bool) (st : state) : state :=
  {| isRecording := b; isPlaying := isPlaying st; isProcessing := isProcessing st;
     error := error st; mediaRecorderRef := mediaRecorderRef st;
     audioChunksRef := audioChunksRef st; micRequests := micRequests st;
     recorders := recorders st; inflight := inflight st;
     utterances := utterances st; calls := calls st |}.

Definition setIsPlaying (b : bool) (st : state) : state :=
  {| isRecording := isRecording st; isPlaying := b; isProcessing := isProcessing st;
     error := error st; mediaRecorderRef := mediaRecorderRef st;
     audioChunksRef := audioChunksRef st; micRequests := micRequests st;
     recorders := recorders st; inflight := inflight st;
     utterances := utterances st; calls := calls st |}.

Definition setIsProcessing (b : bool) (st : state) : state :=
  {| isRecording := isRecording st; isPlaying := isPlaying st; isProcessing := b;
     error := error st; mediaRecorderRef := mediaRecorderRef st;
     audioChunksRef := audioChunksRef st; micRequests := micRequests st;
     recorders := recorders st; inflight := inflight st;
     utterances := utterances st; calls := calls st |}.

Definition setError (e : option string) (st : state) : state :=
  {| isRecording := isRecording st; isPlaying := isPlaying st;
     isProcessing := isProcessing st;
     error := e; mediaRecorderRef := mediaRecorderRef st;
     audioChunksRef := audioChunksRef st; micRequests := micRequests st;
     recorders := recorders st; inflight := inflight st;
     utterances := utterances st; calls := calls st |}.

Definition set_mediaRecorderRef (r : option nat) (st : state) : state :=
  {| isRecording := isRecording st; isPlaying := isPlaying st;
     isProcessing := isProcessing st;
     error := error st; mediaRecorderRef := r;
     audioChunksRef := audioChunksRef st; micRequests := micRequests st;
     recorders := recorders st; inflight := inflight st;
     utterances := utterances st; calls := calls st |}.

Definition set_audioChunksRef (chunks : list blob) (st : state) : state :=
  {| isRecording := isRecording st; isPlaying := isPlaying st;
     isProcessing := isProcessing st;
     error := error st; mediaRecorderRef := mediaRecorderRef st;
     audioChunksRef := chunks; micRequests := micRequests st;
     recorders := recorders st; inflight := inflight st;
     utterances := utterances st; calls := calls st |}.

Definition set_micRequests (n : nat) (st : state) : state :=
  {| isRecording := isRecording st; isPlaying := isPlaying st;
     isProcessing := isProcessing st;
     error := error st; mediaRecorderRef := mediaRecorderRef st;
     audioChunksRef := audioChunksRef st; micRequests := n;
     recorders := recorders st; inflight := inflight st;
     utterances := utterances st; calls := calls st |}.

Definition set_recorders (rs : list recorder) (st : state) : state :=
  {| isRecording := isRecording st; isPlaying := isPlaying st;
     isProcessing := isProcessing st;
     error := error st; mediaRecorderRef := mediaRecorderRef st;
     audioChunksRef := audioChunksRef st; micRequests := micRequests st;
     recorders := rs; inflight := inflight st;
     utterances := utterances st; calls := calls st |}.

Definition set_inflight (ts : list task) (st : state) : state :=
  {| isRecording := isRecording st; isPlaying := isPlaying st;
     isProcessing := isProcessing st;
     error := error st; mediaRecorderRef := mediaRecorderRef st;
     audioChunksRef := audioChunksRef st; micRequests := micRequests st;
     recorders := recorders st; inflight := ts;
     utterances := utterances st; calls := calls st |}.

Definition set_utterances (us : list value) (st : state) : state :=
  {| isRecording := isRecording st; isPlaying := isPlaying st;
     isProcessing := isProcessing st;
     error := error st; mediaRecorderRef := mediaRecorderRef st;
     audioChunksRef := audioChunksRef st; micRequests := micRequests st;
     recorders := recorders st; inflight := inflight st;
     utterances := us; calls := calls st |}.

Definition record_call (c : call) (st : state) : state :=
  {| isRecording := isRecording st; isPlaying := isPlaying st;
     isProcessing := isProcessing st;
     error := error st; mediaRecorderRef := mediaRecorderRef st;
     audioChunksRef := audioChunksRef st; micRequests := micRequests st;
     recorders := recorders st; inflight := inflight st;
     utterances := utterances st; calls := calls st ++ [c] |}.

(** The phase shown to the user, line 203:
    [isProcessing ? 'Processing...' : isRecording ? 'Listening...' :
     isPlaying ? 'Speaking... (click to stop)' : 'Press to speak']. *)
Inductive phase : Type := Idle | Recording | Processing | Speaking.

Definition phase_of (st : state) : phase :=
  if isProcessing st then Processing
  else if isRecording st then Recording
  else if isPlaying st then Speaking
  else Idle.

Definition statusText (st : state) : string :=
  match phase_of st with
  | Processing => "Processing..."
  | Recording => "Listening..."
  | Speaking => "Speaking... (click to stop)"
  | Idle => "Press to speak"
  end.

(** How many of the three flags are raised. *)
Definition raised (st : state) : nat :=
  Nat.b2n (isRecording st) + Nat.b2n (isPlaying st) + Nat.b2n (isProcessing st).

(** ** The handlers *)

Definition mic_error : string :=
  "Unable to access microphone. Please check your permissions.".
Definition processing_error : string :=
  "Sorry, there was an error processing your request. Please try again.".
Definition playback_error : string := "Error playing audio response".

Definition new_recorder : recorder :=
  {| rec_state := rec_inactive; tracks_live := true |}.

Definition with_state (s : recorder_state) (r : recorder) : recorder :=
  {| rec_state := s; tracks_live := tracks_live r |}.

Definition end_tracks (r : recorder) : recorder :=
  {| rec_state := rec_state r; tracks_live := false |}.

(** [recorder.stop()]: an [InvalidStateError] unless the recorder records. *)
Definition recorder_stop (r : nat) (st : state) : completion state :=
  match recorders st !! r with
  | Some {| rec_state := rec_recording |} =>
      Return (set_recorders (alter (with_state rec_stopping) r (recorders st)) st)
  | _ => Throw InvalidStateError
  end.

(** [startRecording], lines 94-147, up to its await: the microphone is
    requested and the handler is suspended. *)
Definition startRecording (st : state) : state :=
  set_micRequests (S (micRequests st)) st.

(** Lines 103-142, run when the microphone request is granted and
    neither the constructor of the recorder nor [start()] throws. *)
Definition startRecording_granted (st : state) : state :=
  let r := length (recorders st) in
  let st := set_recorders (recorders st ++ [new_recorder]) st in
  let st := set_mediaRecorderRef (Some r) st in
  let st := set_audioChunksRef [] st in
  let st := setError None st in
  let st := set_recorders (alter (with_state rec_recording) r (recorders st)) st in
  setIsRecording true st.

(** Lines 143-146, run when the microphone request is rejected. *)
Definition startRecording_denied (st : state) : state :=
  setError (Some mic_error) st.

(** The two statements of lines 103-141 that can throw once the
    microphone request has been granted. *)
Inductive recorder_failure : Type :=
| ConstructorThrows               (* [new MediaRecorder], line 103 *)
| StartThrows.                    (* [start()], line 141 *)

(** Lines 103-146, run when the microphone request is granted and the
    recorder cannot be used.  When the constructor throws, nothing of
    lines 103-142 has taken effect and the [catch] of lines 143-146 sets
    the message.  When [start()] throws, the ref already holds the new
    recorder, the chunk buffer has been emptied and the message cleared;
    the [catch] then sets the message, and line 142 is never reached.
    Nothing stops the tracks of the stream in either case. *)
Definition startRecording_failed (failure : recorder_failure) (st : state)
  : state :=
  match failure with
  | ConstructorThrows => setError (Some mic_error) st
  | StartThrows =>
      let r := length (recorders st) in
      let st :=
        set_recorders (recorders st ++ [with_state rec_unstarted new_recorder]) st in
      let st := set_mediaRecorderRef (Some r) st in
      let st := set_audioChunksRef [] st in
      let st := setError None st in
      setError (Some mic_error) st
  end.

(** Lines 110-114. *)
Definition ondataavailable (data : blob) (st : state) : state :=
  if (0 <? length data)%nat
  then set_audioChunksRef (audioChunksRef st ++ [data]) st
  else st.

(** [speak], lines 157-165.  The constructor of the utterance converts
    its argument to text and throws when that cannot be done; the
    utterance is queued with the value it was made from. *)
Definition speak (text : value) (st : state) : completion state :=
  let* _ := text_empty text in
  Return (set_utterances (utterances st ++ [text])
            (record_call (CallSpeak text) st)).

(** Line 159. *)
Definition utterance_onend (st : state) : state := setIsPlaying false st.

(** Lines 160-163. *)
Definition utterance_onerror (st : state) : state :=
  setError (Some playback_error) (setIsPlaying false st).

(** [catch] and [finally] of the [onstop] handler, lines 132-138. *)
Definition onstop_catch (st : state) : state :=
  setIsPlaying false (setError (Some processing_error) st).

Definition onstop_finally (st : state) : state := setIsProcessing false st.

(** The [onstop] handler, lines 116-139, in its three pieces.  First
    piece, lines 118-120: the blob is assembled from the chunks present
    now, the recognition request is sent, and the handler is suspended. *)
Definition onstop (st : state) : state :=
  let st := setIsProcessing true st in
  let audioBlob : blob := concat (audioChunksRef st) in
  let st := record_call (CallTranscription (requestBody audioBlob)) st in
  set_inflight (inflight st ++ [AwaitTranscription]) st.

(** Second piece, lines 120-127: resumed with the settled recognition
    request.  The Response Client is entered with a truthy text; it sends
    its request, and the handler is suspended on it, when the text could
    be put into the prompt, and fails at once otherwise. *)
Definition onstop_transcribed (i : nat) (fetched : completion response)
    (st : state) : state :=
  let transcribed :=
    let* text := transcription_result fetched in
    if negb (truthy text)
    then Throw (Error "No text was transcribed from the audio")
    else
      let* _ := try_rethrow (text_empty text) ai_failure in
      Return text in
  match transcribed with
  | Return text =>
      set_inflight (<[i := AwaitGeneration]> (inflight st))
        (record_call (CallGeneration (generateBody text)) st)
  | Throw _ =>
      onstop_finally (onstop_catch (set_inflight (delete i (inflight st)) st))
  end.

(** Third piece, lines 127-138: resumed with the settled generation
    request. *)
Definition onstop_generated (i : nat) (fetched : completion response)
    (st : state) : state :=
  let st := set_inflight (delete i (inflight st)) st in
  let spoken :=
    let* aiResponse := generation_result fetched in
    speak aiResponse (setIsPlaying true st) in
  match spoken with
  | Return st => onstop_finally st
  | Throw _ => onstop_finally (onstop_catch st)
  end.

(** [stopRecording], lines 149-155. *)
Definition stopRecording (st : state) : completion state :=
  match mediaRecorderRef st with
  | Some r =>
      if isRecording st then
        let* st := recorder_stop r st in
        let st := setIsRecording false st in
        Return (set_recorders (alter end_tracks r (recorders st)) st)
      else Return st
  | None => Return st
  end.

(** [stopSpeaking], lines 167-170; [speechSynthesis.cancel()] empties the
    queue of the engine. *)
Definition stopSpeaking (st : state) : state :=
  setIsPlaying false (set_utterances [] st).

(** [handleButtonClick], lines 172-180. *)
Definition handleButtonClick (st : state) : completion state :=
  if isPlaying st then Return (stopSpeaking st)
  else if isRecording st then stopRecording st
  else Return (startRecording st).

(** ** Events *)

Inductive event : Type :=
| Click                                   (* the trigger action *)
| MicSettled (granted : bool)
    (* a [getUserMedia] promise settles: it is rejected, or it is
       fulfilled and the recorder is constructed and started *)
| DataAvailable (r : nat) (data : blob)   (* recorder [r] delivers a chunk *)
| RecorderStopped (r : nat)               (* recorder [r] fires [stop] *)
| Transcribed (i : nat) (fetched : completion response)
| Generated (i : nat) (fetched : completion response)
| UtteranceEnd                            (* the utterance being spoken ends *)
| UtteranceError                          (* the utterance being spoken fails *)
| MicUnusable (failure : recorder_failure).
    (* a [getUserMedia] promise is fulfilled, and the recorder throws *)

Definition delivering (r : recorder) : bool :=
  match rec_state r with
  | rec_recording | rec_stopping => true
  | rec_inactive | rec_unstarted => false
  end.

Definition is_unstarted (r : recorder) : bool :=
  match rec_state r with
  | rec_unstarted => true
  | _ => false
  end.

(** What the host has shown of itself: the constructor can throw while
    no recorder has been constructed, [start()] while no recorder has
    started. *)
Definition can_fail (failure : recorder_failure) (st : state) : bool :=
  match failure with
  | ConstructorThrows => match recorders st with [] => true | _ => false end
  | StartThrows => forallb is_unstarted (recorders st)
  end.

(** One turn of the event loop: [None] when the host cannot deliver the
    event in this state, [Some (Throw e)] when the handler lets [e]
    escape. *)
Definition step (st : state) (e : event) : option (completion state) :=
  match e with
  | Click => Some (handleButtonClick st)
  | MicSettled granted =>
      match micRequests st with
      | O => None
      | S n =>
          let st := set_micRequests n st in
          Some (Return (if granted then startRecording_granted st
                        else startRecording_denied st))
      end
  | DataAvailable r data =>
      match recorders st !! r with
      | Some rec =>
          if delivering rec then Some (Return (ondataavailable data st)) else None
      | None => None
      end
  | RecorderStopped r =>
      match recorders st !! r with
      | Some {| rec_state := rec_stopping |} =>
          Some (Return (onstop
            (set_recorders (alter (with_state rec_inactive) r (recorders st)) st)))
      | _ => None
      end
  | Transcribed i fetched =>
      match inflight st !! i with
      | Some AwaitTranscription => Some (Return (onstop_transcribed i fetched st))
      | _ => None
      end
  | Generated i fetched =>
      match inflight st !! i with
      | Some AwaitGeneration => Some (Return (onstop_generated i fetched st))
      | _ => None
      end
  | UtteranceEnd =>
      match utterances st with
      | _ :: rest => Some (Return (utterance_onend (set_utterances rest st)))
      | [] => None
      end
  | UtteranceError =>
      match utterances st with
      | _ :: rest => Some (Return (utterance_onerror (set_utterances rest st)))
      | [] => None
      end
  | MicUnusable failure =>
      match micRequests st with
      | O => None
      | S n =>
          if can_fail failure st
          then Some (Return (startRecording_failed failure (set_micRequests n st)))
          else None
      end
  end.

(** A run of the event loop; it stops at the first event that cannot be
    delivered or whose handler throws. *)
Fixpoint run (st : state) (es : list event) : option state :=
  match es with
  | [] => Some st
  | e :: rest =>
      match step st e with
      | Some (Return st') => run st' rest
      | _ => None
      end
  end.

Definition reachable (st : state) : Prop := exists es, run initial es = Some st.

(** ** Notions used in the statements *)

(** The value tested at line 52, when control gets that far: the
    request settled with a success status and a body that parsed. *)
Definition result_set (fetched : completion response) : option value :=
  match fetched with
  | Return r =>
      if ok r then
        match json r with
        | Return data =>
            match get data "results" with
            | Return v => Some v
            | Throw _ => None
            end
        | Throw _ => None
        end
      else None
  | Throw _ => None
  end.

(** The result set is absent (control never reaches line 52, or
    [!data.results] holds there) or it is the empty array. *)
Definition no_results (fetched : completion response) : Prop :=
  match result_set fetched with
  | None => True
  | Some v => truthy v = false \/ v = Arr []
  end.

(** The left operand of [||] at line 87, when control gets that far. *)
Definition text_part (fetched : completion response) : option value :=
  match fetched with
  | Return r =>
      if ok r then
        match json r with
        | Return data =>
            match candidate_text data with
            | Return v => Some v
            | Throw _ => None
            end
        | Throw _ => None
        end
      else None
  | Throw _ => None
  end.

(** The recorder held by the ref is recording whenever the recording
    flag is raised, so [stop()] is never called on an inactive recorder. *)
Definition ref_recording (st : state) : Prop :=
  isRecording st = true ->
  exists r rec, mediaRecorderRef st = Some r /\
                recorders st !! r = Some rec /\
                rec_state rec = rec_recording.

(** The value can be converted to text. *)
Definition has_text (v : value) : bool :=
  match text_empty v with
  | Return _ => true
  | Throw _ => false
  end.

(** A request that carries text carries a truthy value that has a text. *)
Definition call_sound (c : call) : Prop :=
  match c with
  | CallTranscription _ => True
  | CallGeneration request =>
      truthy (spoken request) = true /\ has_text (spoken request) = true
  | CallSpeak text => truthy text = true /\ has_text text = true
  end.

Definition calls_sound (st : state) : Prop :=
  Forall call_sound (calls st) /\
  Forall (fun text => truthy text = true /\ has_text text = true)
    (utterances st).

(** The recorders that owe their [stop] event. *)
Definition is_stopping (r : recorder) : bool :=
  match rec_state r with
  | rec_stopping => true
  | _ => false
  end.

Fixpoint stopping (rs : list recorder) : nat :=
  match rs with
  | [] => 0
  | r :: rest => Nat.b2n (is_stopping r) + stopping rest
  end.

(** Nothing is outstanding: no microphone request is pending, no
    recorder owes its [stop] event and no [onstop] handler is suspended. *)
Definition quiescent (st : state) : bool :=
  (micRequests st =? 0)%nat && (stopping (recorders st) =? 0)%nat &&
  match inflight st with [] => true | _ => false end.

(** A run is patient when every trigger action arrives in a quiescent
    state. *)
Fixpoint patient (st : state) (es : list event) : bool :=
  match es with
  | [] => true
  | e :: rest =>
      match e with Click => quiescent st | _ => true end &&
      match step st e with
      | Some (Return st') => patient st' rest
      | _ => true
      end
  end.

(** The invariant of patient runs: the recording flag, the speaking
    flag and each piece of outstanding work exclude one another, and the
    processing flag is only raised while a handler is suspended. *)
Definition exclusive (st : state) : Prop :=
  (Nat.b2n (isRecording st) + Nat.b2n (isPlaying st) + micRequests st +
   stopping (recorders st) + length (inflight st) <= 1)%nat /\
  (isProcessing st = true -> inflight st <> []).

(** What the [catch] and [finally] of [onstop] leave behind for the run
    that was task [i] of [st]. *)
Definition failed_run (st : state) (i : nat) (st' : state) : Prop :=
  isProcessing st' = false /\
  isPlaying st' = false /\
  error st' = Some processing_error /\
  isRecording st' = isRecording st /\
  calls st' = calls st /\
  utterances st' = utterances st /\
  inflight st' = delete i (inflight st).

(** ** Sample responses and traces *)

Definition ok_json (data : value) : completion response :=
  Return {| ok := true; json := Return data |}.

(** [{results: [{alternatives: [{transcript: "hello"}]}]}] *)
Definition heard_hello : value :=
  Obj [("results",
        Arr [Obj [("alternatives", Arr [Obj [("transcript", Str "hello")]])]])].

(** [{candidates: [{content: {parts: [{text: "Hi there"}]}}]}] *)
Definition reply_hi : value :=
  Obj [("candidates",
        Arr [Obj [("content", Obj [("parts", Arr [Obj [("text", Str "Hi there")]])])]])].

(** Press, microphone granted, press again, the recorder reports its stop. *)
Definition record_and_stop : list event :=
  [Click; MicSettled true; Click; RecorderStopped 0].

(** The same with one chunk of audio delivered at the stop, and the whole
    pipeline run to the end of the playback. *)
Definition conversation : list event :=
  [Click; MicSettled true; Click; DataAvailable 0 [x1a; x45; xdf; xa3];
   RecorderStopped 0; Transcribed 0 (ok_json heard_hello);
   Generated 0 (ok_json reply_hi); UtteranceEnd].

(** The state a run from the initial state ends in. *)
Definition after (es : list event) : state :=
  match run initial es with
  | Some st => st
  | None => initial
  end.

(** A second press while the first recording is being processed. *)
Definition impatient : list event :=
  (record_and_stop ++ [Click; MicSettled true])%list.

(** ** Presentation, lines 182-209 *)

(** Line 182. *)
Definition buttonColor (st : state) : string :=
  if isRecording st then "bg-red-500"
  else if isPlaying st then "bg-green-500"
  else "bg-blue-500".

(** Line 183. *)
Definition buttonAnimation (st : state) : string :=
  if isProcessing st then "animate-pulse" else "".

(** Line 192. *)
Definition ariaLabel (st : state) : string :=
  if isPlaying st then "Stop Response"
  else if isRecording st then "Stop Recording"
  else "Start Recording".

(** Lines 194-200. *)
Inductive icon : Type := Square | Mic | Speaker.

Definition buttonIcon (st : state) : icon :=
  if isPlaying st then Square
  else if isRecording st then Mic
  else Speaker.

(** Lines 205-209, [{error && (<p>{error}</p>)}]: the text of the
    paragraph, if it is rendered. *)
Definition errorBanner (st : state) : option string :=
  match error st with
  | Some message => if String.eqb message "" then None else Some message
  | None => None
  end.

(** ** Notions used in the further properties *)

(** How many elements of a list pass a test. *)
Fixpoint tally {A : Type} (p : A -> bool) (l : list A) : nat :=
  match l with
  | [] => 0
  | a :: rest => Nat.b2n (p a) + tally p rest
  end.

Definition is_recording (r : recorder) : bool :=
  match rec_state r with
  | rec_recording => true
  | _ => false
  end.

Definition is_inactive (r : recorder) : bool :=
  match rec_state r with
  | rec_inactive => true
  | _ => false
  end.

Definition is_transcription_call (c : call) : bool :=
  match c with CallTranscription _ => true | _ => false end.

Definition is_generation_call (c : call) : bool :=
  match c with CallGeneration _ => true | _ => false end.

Definition is_speak_call (c : call) : bool :=
  match c with CallSpeak _ => true | _ => false end.

Definition awaits_transcription (t : task) : bool :=
  match t with AwaitTranscription => true | AwaitGeneration => false end.

Definition awaits_generation (t : task) : bool :=
  match t with AwaitGeneration => true | AwaitTranscription => false end.

(** The messages the component ever passes to [setError]. *)
Definition known_error (e : option string) : Prop :=
  e = None \/ e = Some mic_error \/ e = Some processing_error \/
  e = Some playback_error.

(** The ref holds the recorder constructed last. *)
Definition ref_newest (st : state) : Prop :=
  mediaRecorderRef st =
  match length (recorders st) with
  | O => None
  | S n => Some n
  end.

(** What every run keeps, whatever the order of the events. *)
Record sane (st : state) : Prop := {
  sane_error : known_error (error st);
  sane_chunks : Forall (fun chunk : blob => chunk <> []) (audioChunksRef st);
  sane_ref : ref_newest st;
  sane_tracks :
    Forall (fun r => tracks_live r = is_recording r || is_unstarted r)
      (recorders st);
  sane_playing : isPlaying st = true -> utterances st <> [];
  sane_processing : isProcessing st = true -> inflight st <> [];
  sane_stopped :
    tally is_inactive (recorders st) = tally is_transcription_call (calls st);
  sane_generation :
    (tally awaits_transcription (inflight st) +
     tally is_generation_call (calls st) <=
     tally is_transcription_call (calls st))%nat;
  sane_speech :
    (tally awaits_generation (inflight st) + tally is_speak_call (calls st) <=
     tally is_generation_call (calls st))%nat;
  sane_queue :
    (length (utterances st) <= tally is_speak_call (calls st))%nat
}.

(** What patient runs keep on top of [exclusive]: the processing flag is
    raised for as long as a handler is suspended, the speaking flag for
    as long as the engine has something queued, and the recording flag for
    as long as a recorder records. *)
Record settled (st : state) : Prop := {
  settled_exclusive : exclusive st;
  settled_processing : inflight st <> [] -> isProcessing st = true;
  settled_queue : length (utterances st) = Nat.b2n (isPlaying st);
  settled_recording :
    tally is_recording (recorders st) = Nat.b2n (isRecording st)
}.

(** The moves between phases that one event can make. *)
Definition legal (p q : phase) : bool :=
  match p, q with
  | Idle, (Idle | Recording | Processing) => true
  | Recording, (Recording | Idle) => true
  | Processing, (Processing | Speaking | Idle) => true
  | Speaking, (Speaking | Idle) => true
  | _, _ => false
  end.

(** The events by which recorder [r] hands over the chunks [ds]. *)
Definition chunks_of (r : nat) (ds : list blob) : list event :=
  List.map (DataAvailable r) ds.

(** The chunks [ondataavailable] keeps. *)
Definition kept (ds : list blob) : list blob :=
  List.filter (fun d => (0 <? length d)%nat) ds.

(** Reading base64 back, to show that [btoa] loses nothing. *)
Fixpoint position (c : ascii) (s : string) : N :=
  match s with
  | EmptyString => 0
  | String c' rest => if Ascii.eqb c c' then 0 else N.succ (position c rest)
  end.

Definition base64_value (c : ascii) : N := position c base64_alphabet.

Fixpoint base64_ungroup (cs : list ascii) : list N :=
  match cs with
  | c1 :: c2 :: c3 :: c4 :: rest =>
      let v1 := base64_value c1 in
      let v2 := base64_value c2 in
      if Ascii.eqb c3 "=" then [(v1 * 4 + v2 / 16)%N]
      else
        let v3 := base64_value c3 in
        if Ascii.eqb c4 "=" then
          [(v1 * 4 + v2 / 16)%N; ((v2 mod 16) * 16 + v3 / 4)%N]
        else
          let v4 := base64_value c4 in
          (v1 * 4 + v2 / 16)%N :: ((v2 mod 16) * 16 + v3 / 4)%N ::
          ((v3 mod 4) * 64 + v4)%N :: base64_ungroup rest
  | _ => []
  end.

(** ** Facts about the two clients *)

Lemma transcription_result_throws fetched e :
  transcription_result fetched = Throw e -> e = stt_failure.
Proof.
  unfold transcription_result, try_rethrow.
  destruct (let* response := fetched in _); congruence.
Qed.

Lemma transcription_no_results fetched :
  no_results fetched -> transcription_result fetched = Throw stt_failure.
Proof.
  unfold no_results, result_set, transcription_result.
  destruct fetched as [r|e]; simpl; [|reflexivity].
  destruct (ok r); simpl; [|destruct (json r); reflexivity].
  destruct (json r) as [data|e]; simpl; [|reflexivity].
  destruct (get data "results") as [v|e]; simpl; [|reflexivity].
  intros [Hfalsy | ->].
  - rewrite Hfalsy. reflexivity.
  - reflexivity.
Qed.

Lemma transcription_first_alternative fetched first more best others v :
  result_set fetched = Some (Arr (first :: more)) ->
  get first "alternatives" = Return (Arr (best :: others)) ->
  get best "transcript" = Return v ->
  transcription_result fetched = Return (or_else v (Str "")).
Proof.
  unfold result_set, transcription_result.
  destruct fetched as [r|e]; [|discriminate]. simpl.
  destruct (ok r); [|discriminate]. simpl.
  destruct (json r) as [data|e]; [|discriminate]. simpl.
  destruct (get data "results") as [rs|e]; [|discriminate].
  intros [= ->] Halt Hbest. simpl.
  rewrite Halt. simpl. rewrite Hbest. reflexivity.
Qed.

Lemma or_else_text t : or_else (Str t) (Str "") = Str t.
Proof. destruct t; reflexivity. Qed.

(** The client hands back either a truthy transcript or the empty
    string. *)
Lemma transcription_result_returns fetched v :
  transcription_result fetched = Return v -> truthy v = true \/ v = Str "".
Proof.
  unfold transcription_result, try_rethrow.
  destruct fetched as [r|e]; simpl; [|discriminate].
  destruct (ok r); simpl; [|destruct (json r); discriminate].
  destruct (json r) as [data|e]; simpl; [|discriminate].
  destruct (get data "results") as [rs|e]; simpl; [|discriminate].
  destruct (if negb (truthy rs) then _ else _) as [[|]|e]; simpl; try discriminate.
  destruct (index rs 0) as [first|e]; simpl; [|discriminate].
  destruct (get first "alternatives") as [alts|e]; simpl; [|discriminate].
  destruct (index alts 0) as [best|e]; simpl; [|discriminate].
  destruct (get best "transcript") as [tr|e]; simpl; [|discriminate].
  intros [= <-]. unfold or_else. destruct (truthy tr) eqn:E; auto.
Qed.

Lemma generation_result_throws fetched e :
  generation_result fetched = Throw e -> e = ai_failure.
Proof.
  unfold generation_result, try_rethrow.
  destruct (let* response := fetched in _); congruence.
Qed.

Lemma generation_result_returns fetched v :
  generation_result fetched = Return v ->
  exists text, text_part fetched = Some text /\
               v = or_else text (Str fallback_reply).
Proof.
  unfold generation_result, text_part, try_rethrow.
  destruct fetched as [r|e]; simpl; [|discriminate].
  destruct (ok r); simpl; [|destruct (json r); discriminate].
  destruct (json r) as [data|e]; simpl; [|discriminate].
  destruct (candidate_text data) as [text|e]; simpl; [|discriminate].
  intros [= <-]. eauto.
Qed.

(** The Response Client is its request followed by what it makes of
    the answer, provided the text could be put into the prompt. *)
Lemma getGeminiResponse_sent fetch text :
  has_text text = true ->
  getGeminiResponse fetch text = generation_result (fetch (generateBody text)).
Proof.
  unfold getGeminiResponse, has_text.
  destruct (text_empty text) as [empty|]; [|discriminate]. intros _. simpl.
  destruct (generation_result (fetch (generateBody text))) as [v|e] eqn:E;
    [reflexivity|].
  simpl. rewrite (generation_result_throws _ _ E). reflexivity.
Qed.

Lemma getGeminiResponse_unsent fetch text :
  has_text text = false -> getGeminiResponse fetch text = Throw ai_failure.
Proof.
  unfold getGeminiResponse, has_text.
  destruct (text_empty text); [discriminate | reflexivity].
Qed.

Lemma getGeminiResponse_returns fetch text v :
  getGeminiResponse fetch text = Return v ->
  has_text text = true /\
  generation_result (fetch (generateBody text)) = Return v.
Proof.
  intros H. destruct (has_text text) eqn:E.
  - rewrite getGeminiResponse_sent in H by exact E. auto.
  - rewrite getGeminiResponse_unsent in H by exact E. discriminate.
Qed.

Lemma getGeminiResponse_throws fetch text e :
  getGeminiResponse fetch text = Throw e -> e = ai_failure.
Proof.
  unfold getGeminiResponse, try_rethrow.
  destruct (let* _ := text_empty text in _); congruence.
Qed.


Lemma or_else_fallback_truthy text :
  truthy (or_else text (Str fallback_reply)) = true.
Proof. unfold or_else. destruct (truthy text) eqn:E; [exact E | reflexivity]. Qed.

Lemma generation_result_truthy fetched v :
  generation_result fetched = Return v -> truthy v = true.
Proof.
  intros H. apply generation_result_returns in H as (text & _ & ->).
  apply or_else_fallback_truthy.
Qed.

Lemma truthy_not_empty v : truthy v = true -> v <> Str "".
Proof. intros H ->. discriminate. Qed.

(** A body other than [null] always has a (possibly undefined) text
    part: only the first property read of the chain can throw. *)
Lemma candidate_text_defined data :
  nullish data = false -> exists text, candidate_text data = Return text.
Proof.
  intros Hdata. unfold candidate_text.
  assert (exists c, get data "candidates" = Return c) as [c ->]
    by (destruct data; try discriminate; simpl; eauto).
  simpl. unfold index_opt, get_opt.
  destruct (nullish c) eqn:Ec; simpl.
  - eauto.
  - assert (exists x, index c 0 = Return x) as [x ->]
      by (destruct c; try discriminate; simpl; eauto).
    simpl. destruct (nullish x) eqn:Ex; simpl; [eauto|].
    assert (exists y, get x "content" = Return y) as [y ->]
      by (destruct x; try discriminate; simpl; eauto).
    simpl. destruct (nullish y) eqn:Ey; simpl; [eauto|].
    assert (exists z, get y "parts" = Return z) as [z ->]
      by (destruct y; try discriminate; simpl; eauto).
    simpl. destruct (nullish z) eqn:Ez; simpl; [eauto|].
    assert (exists u, index z 0 = Return u) as [u ->]
      by (destruct z; try discriminate; simpl; eauto).
    simpl. destruct (nullish u) eqn:Eu; simpl; [eauto|].
    destruct u; try discriminate; simpl; eauto.
Qed.

Lemma generation_fallback r data :
  ok r = true -> json r = Return data -> nullish data = false ->
  (forall text, candidate_text data = Return text -> truthy text = false) ->
  generation_result (Return r) = Return (Str fallback_reply).
Proof.
  intros Hok Hjson Hdata Habsent.
  destruct (candidate_text_defined data Hdata) as [text Htext].
  unfold generation_result. simpl. rewrite Hok, Hjson. simpl.
  rewrite Htext. simpl. unfold or_else. rewrite (Habsent _ Htext). reflexivity.
Qed.

(** ** Runs of the event loop *)

(** A chunk was delivered: what is left is the two outcomes of
    [ondataavailable]. *)
Ltac on_chunk Hstep :=
  match type of Hstep with
  | context [recorders ?st !! ?r] =>
      destruct (recorders st !! r) as [?|]; [|discriminate Hstep];
      match type of Hstep with
      | context [delivering ?rec] =>
          destruct (delivering rec); [|discriminate Hstep]
      end;
      injection Hstep as <-; unfold ondataavailable;
      match goal with
      | |- context [(0 <? length ?data)%nat] => destruct (0 <? length data)%nat
      end
  end.

(** The utterance at the head of the queue ended or failed. *)
Ltac on_utterance Hstep :=
  match type of Hstep with
  | context [utterances ?st] =>
      destruct (utterances st) as [|? ?]; [discriminate Hstep|];
      injection Hstep as <-
  end.

Lemma run_app st es1 es2 :
  run st (es1 ++ es2) =
  match run st es1 with Some st' => run st' es2 | None => None end.
Proof.
  revert st. induction es1 as [|e es1 IH]; intros st; simpl; [reflexivity|].
  destruct (step st e) as [[st'|]|]; auto.
Qed.

Lemma run_take_Some st es st' n :
  run st es = Some st' -> exists mid, run st (take n es) = Some mid.
Proof.
  intros H. rewrite <- (take_drop n es), run_app in H.
  destruct (run st (take n es)); [eauto | discriminate].
Qed.

(** A property kept by every delivered event is kept by every run. *)
Section Invariant.

Variable P : state -> Prop.
Hypothesis P_step :
  forall st e st', P st -> step st e = Some (Return st') -> P st'.

Lemma run_preserves es :
  forall st st', P st -> run st es = Some st' -> P st'.
Proof.
  induction es as [|e es IH]; intros st st' HP Hrun; simpl in Hrun.
  - congruence.
  - destruct (step st e) as [[mid|]|] eqn:E; try discriminate. eauto.
Qed.

Lemma reachable_preserves : P initial -> forall st, reachable st -> P st.
Proof. intros H0 st [es Hes]. eapply run_preserves; eauto. Qed.

End Invariant.


Lemma alter_last {A} (f : A -> A) (l : list A) (x : A) :
  alter f (length l) (l ++ [x])%list = (l ++ [f x])%list.
Proof. induction l as [|a l IH]; simpl; [reflexivity | f_equal; exact IH]. Qed.

Lemma lookup_last {A} (l : list A) (x : A) : (l ++ [x])%list !! length l = Some x.
Proof. induction l as [|a l IH]; simpl; [reflexivity | exact IH]. Qed.

Lemma lookup_alter_same {A} (f : A -> A) (l : list A) i x :
  l !! i = Some x -> alter f i l !! i = Some (f x).
Proof.
  revert i. induction l as [|a l IH]; intros [|i]; simpl; try discriminate.
  - intros [= ->]. reflexivity.
  - apply IH.
Qed.

Lemma lookup_alter_other {A} (f : A -> A) (l : list A) i j :
  i <> j -> alter f i l !! j = l !! j.
Proof.
  revert i j. induction l as [|a l IH]; intros [|i] [|j] Hne; simpl; try reflexivity.
  - congruence.
  - apply IH. congruence.
Qed.

Lemma unstarted_lookup rs r rec :
  forallb is_unstarted rs = true -> rs !! r = Some rec ->
  rec_state rec = rec_unstarted.
Proof.
  revert r. induction rs as [|a rs IH]; intros [|r]; simpl; try discriminate.
  - intros H [= <-]. apply andb_true_iff in H as [H _].
    unfold is_unstarted in H. destruct (rec_state a); congruence.
  - intros H. apply andb_true_iff in H as [_ H]. apply IH. exact H.
Qed.

(** The microphone was granted and the recorder threw: what is left is
    the two places where it can throw. *)
Ltac on_failure Hstep Ehost :=
  match type of Hstep with
  | context [micRequests ?st] =>
      destruct (micRequests st) as [|?] eqn:?; [discriminate Hstep|];
      match type of Hstep with
      | context [can_fail ?failure st] =>
          destruct (can_fail failure st) eqn:Ehost; [|discriminate Hstep];
          injection Hstep as <-; destruct failure
      end
  end.




(** ** What the collaborators are asked *)

Lemma calls_sound_step st e st' :
  calls_sound st -> step st e = Some (Return st') -> calls_sound st'.
Proof.
  unfold calls_sound. intros [Hcalls Hutt] Hstep.
  destruct e as [|granted|r data|r|i fetched|i fetched| | |failure]; simpl in Hstep.
  - unfold handleButtonClick in Hstep.
    destruct (isPlaying st).
    { injection Hstep as <-. simpl. split; [exact Hcalls | constructor]. }
    destruct (isRecording st) eqn:Erec.
    + unfold stopRecording in Hstep. rewrite Erec in Hstep.
      destruct (mediaRecorderRef st) as [r|]; [|injection Hstep as <-; auto].
      unfold recorder_stop in Hstep.
      destruct (recorders st !! r) as [[[] live]|]; try discriminate.
      simpl in Hstep. injection Hstep as <-. auto.
    + injection Hstep as <-. auto.
  - destruct (micRequests st); [discriminate|].
    injection Hstep as <-. destruct granted; auto.
  - on_chunk Hstep; auto.
  - destruct (recorders st !! r) as [[[] live]|]; try discriminate.
    injection Hstep as <-. simpl. split; [|exact Hutt].
    apply Forall_app. split; [exact Hcalls|]. repeat constructor.
  - destruct (inflight st !! i) as [[]|]; try discriminate.
    injection Hstep as <-. unfold onstop_transcribed.
    destruct (transcription_result fetched) as [text|]; simpl; [|auto].
    destruct (truthy text) eqn:Etext; simpl; [|auto].
    destruct (text_empty text) as [empty|] eqn:Econv; simpl; [|auto].
    split; [|exact Hutt].
    apply Forall_app. split; [exact Hcalls|]. repeat constructor; simpl.
    + exact Etext.
    + unfold has_text. rewrite Econv. reflexivity.
  - destruct (inflight st !! i) as [[]|]; try discriminate.
    injection Hstep as <-. unfold onstop_generated.
    destruct (generation_result fetched) as [reply|] eqn:Egen; simpl; [|auto].
    apply generation_result_truthy in Egen. unfold speak.
    destruct (text_empty reply) as [empty|] eqn:Econv; simpl; [|auto].
    assert (has_text reply = true) as Htext
      by (unfold has_text; rewrite Econv; reflexivity).
    split; apply Forall_app; (split; [assumption|]); repeat constructor;
      assumption.
  - on_utterance Hstep. simpl. split; [exact Hcalls|].
    inversion Hutt; assumption.
  - on_utterance Hstep. simpl. split; [exact Hcalls|].
    inversion Hutt; assumption.
  - on_failure Hstep Ehost; simpl; auto.
Qed.

Lemma reachable_calls_sound st : reachable st -> calls_sound st.
Proof.
  apply reachable_preserves.
  - intros ? ? ?. apply calls_sound_step.
  - split; constructor.
Qed.

(** ** Outstanding work and patient runs *)

Lemma stopping_app rs1 rs2 :
  stopping (rs1 ++ rs2) = (stopping rs1 + stopping rs2)%nat.
Proof. induction rs1 as [|r rs1 IH]; simpl; [reflexivity | rewrite IH; lia]. Qed.

Lemma stopping_alter f rs r rec :
  rs !! r = Some rec ->
  (stopping (alter f r rs) + Nat.b2n (is_stopping rec) =
   stopping rs + Nat.b2n (is_stopping (f rec)))%nat.
Proof.
  revert r. induction rs as [|a rs IH]; intros [|r]; simpl; try discriminate.
  - intros [= ->]. lia.
  - intros H. specialize (IH _ H). change (alter f r rs) with (list_alter f r rs) in IH. lia.
Qed.

Lemma stopping_lookup rs r rec :
  rs !! r = Some rec -> is_stopping rec = true -> (1 <= stopping rs)%nat.
Proof.
  revert r. induction rs as [|a rs IH]; intros [|r]; simpl; try discriminate.
  - intros [= ->] ->. simpl. lia.
  - intros H1 H2. specialize (IH _ H1 H2). lia.
Qed.

Lemma exclusive_raised st : exclusive st -> (raised st <= 1)%nat.
Proof.
  unfold exclusive, raised. intros [Hsum Hproc].
  destruct (isProcessing st); simpl; [|lia].
  specialize (Hproc eq_refl). destruct (inflight st); [congruence|].
  simpl in Hsum. lia.
Qed.

Lemma quiescent_true st :
  quiescent st = true ->
  micRequests st = 0%nat /\ stopping (recorders st) = 0%nat /\ inflight st = [].
Proof.
  unfold quiescent. intros H.
  apply andb_true_iff in H as [H H3]. apply andb_true_iff in H as [H1 H2].
  apply Nat.eqb_eq in H1, H2. destruct (inflight st); [auto | discriminate].
Qed.

Lemma exclusive_step st e st' :
  exclusive st ->
  match e with Click => quiescent st | _ => true end = true ->
  step st e = Some (Return st') ->
  exclusive st'.
Proof.
  unfold exclusive. intros [Hsum Hproc] Hpatient Hstep.
  destruct e as [|granted|r data|r|i fetched|i fetched| | |failure]; simpl in Hstep.
  - (* Click *)
    apply quiescent_true in Hpatient as (Hmic & Hstop & Hin).
    unfold handleButtonClick in Hstep.
    destruct (isPlaying st) eqn:Eplay.
    { injection Hstep as <-. simpl in *. split; [lia | exact Hproc]. }
    destruct (isRecording st) eqn:Erec.
    + unfold stopRecording in Hstep. rewrite Erec in Hstep.
      destruct (mediaRecorderRef st) as [r|].
      2:{ injection Hstep as <-. rewrite Erec, Eplay. auto. }
      unfold recorder_stop in Hstep.
      destruct (recorders st !! r) as [[[] live]|] eqn:Er; try discriminate.
      simpl in Hstep. injection Hstep as <-. simpl.
      split; [|intros Hp; exfalso; exact (Hproc Hp Hin)].
      pose proof (stopping_alter (with_state rec_stopping) _ _ _ Er) as H1.
      pose proof (lookup_alter_same (with_state rec_stopping) _ _ _ Er) as Er'.
      pose proof (stopping_alter end_tracks _ _ _ Er') as H2.
      simpl in H1, H2. rewrite Eplay, Hmic, Hin. simpl. lia.
    + injection Hstep as <-. simpl. rewrite Erec, Eplay, Hstop, Hin. simpl.
      split; [lia | intros Hp; exfalso; exact (Hproc Hp Hin)].
  - (* MicSettled *)
    destruct (micRequests st) as [|n] eqn:Emic; [discriminate|].
    injection Hstep as <-. destruct granted; simpl.
    + split; [|exact Hproc].
      rewrite alter_last, stopping_app. simpl. lia.
    + split; [lia | exact Hproc].
  - (* DataAvailable *)
    on_chunk Hstep; simpl; auto.
  - (* RecorderStopped *)
    destruct (recorders st !! r) as [[[] live]|] eqn:Er; try discriminate.
    injection Hstep as <-. simpl.
    pose proof (stopping_alter (with_state rec_inactive) _ _ _ Er) as H1.
    simpl in H1. rewrite length_app. simpl.
    split; [lia|]. intros _. destruct (inflight st); discriminate.
  - (* Transcribed *)
    destruct (inflight st !! i) as [[]|] eqn:Ei; try discriminate.
    injection Hstep as <-. unfold onstop_transcribed.
    pose proof (lookup_lt_Some _ _ _ Ei) as Hlen.
    destruct (let* text := transcription_result fetched in _); simpl.
    + rewrite length_insert. split; [exact Hsum|].
      intros Hp Hnil. apply (f_equal length) in Hnil.
      rewrite length_insert in Hnil. simpl in Hnil. lia.
    + rewrite length_delete by eauto. split; [lia | discriminate].
  - (* Generated *)
    destruct (inflight st !! i) as [[]|] eqn:Ei; try discriminate.
    injection Hstep as <-. unfold onstop_generated.
    pose proof (lookup_lt_Some _ _ _ Ei) as Hlen.
    destruct (generation_result fetched) as [reply|]; simpl;
      [unfold speak; destruct (text_empty reply); simpl|];
      (rewrite length_delete by eauto); (split; [lia | discriminate]).
  - on_utterance Hstep. simpl. split; [lia | exact Hproc].
  - on_utterance Hstep. simpl. split; [lia | exact Hproc].
  - (* MicUnusable *)
    on_failure Hstep Ehost; simpl; (split; [|exact Hproc]).
    + lia.
    + rewrite stopping_app. simpl. lia.
Qed.

Lemma exclusive_initial : exclusive initial.
Proof. split; simpl; [lia | discriminate]. Qed.

Lemma patient_run_exclusive es st st' :
  exclusive st -> patient st es = true -> run st es = Some st' -> exclusive st'.
Proof.
  revert st. induction es as [|e es IH]; intros st Hex Hpat Hrun; simpl in *.
  - congruence.
  - apply andb_true_iff in Hpat as [Hclick Hrest].
    destruct (step st e) as [[mid|]|] eqn:E; try discriminate.
    eapply IH; [|exact Hrest|exact Hrun]. eapply exclusive_step; eauto.
Qed.

Lemma patient_take st es n :
  patient st es = true -> patient st (take n es) = true.
Proof.
  revert st n. induction es as [|e es IH]; intros st [|n] H; simpl in *; auto.
  apply andb_true_iff in H as [H1 H2]. rewrite H1. simpl.
  destruct (step st e) as [[mid|]|]; auto.
Qed.

(** ** Effects of single events *)

Lemma failed_run_intro st i :
  failed_run st i
    (onstop_finally (onstop_catch (set_inflight (delete i (inflight st)) st))).
Proof. repeat split. Qed.


Lemma transcribed_failure st i fetched :
  inflight st !! i = Some AwaitTranscription ->
  (forall text, transcription_result fetched = Return text -> truthy text = false) ->
  exists st', step st (Transcribed i fetched) = Some (Return st') /\
              failed_run st i st'.
Proof.
  intros Hi Hfail. simpl. rewrite Hi. eexists. split; [reflexivity|].
  unfold onstop_transcribed.
  destruct (transcription_result fetched) as [text|e] eqn:E; simpl.
  - rewrite (Hfail text eq_refl). simpl. apply failed_run_intro.
  - apply failed_run_intro.
Qed.


Lemma has_text_true v :
  has_text v = true -> exists empty, text_empty v = Return empty.
Proof. unfold has_text. destruct (text_empty v); [eauto | discriminate]. Qed.

Lemma has_text_false v :
  has_text v = false -> exists e, text_empty v = Throw e.
Proof. unfold has_text. destruct (text_empty v); [discriminate | eauto]. Qed.

(** The text of a truthy string is not empty. *)
Lemma truthy_string_text s :
  truthy (Str s) = true -> text_empty (Str s) = Return false.
Proof. simpl. destruct (String.eqb s ""); [discriminate | reflexivity]. Qed.

(** A truthy value with an empty text is an array, of one element at
    most. *)
Lemma empty_text_of_truthy v :
  truthy v = true -> text_empty v = Return true ->
  exists items, v = Arr items /\ (length items <= 1)%nat.
Proof.
  destruct v as [| |b|m e|s|items|fields]; simpl; try discriminate.
  - destruct (String.eqb s ""); discriminate.
  - intros _ H. exists items. split; [reflexivity|].
    destruct items as [|x [|y rest]]; simpl; try lia.
    exfalso. revert H. unfold bind.
    repeat match goal with
           | |- context [match ?c with Return _ => _ | Throw _ => _ end] =>
               destruct c
           end; discriminate.
  - destruct (has_field "toString" fields); discriminate.
Qed.

(** A transcript that has no text ends the run where the Response Client
    is entered. *)
Lemma transcribed_without_text st i fetched text :
  inflight st !! i = Some AwaitTranscription ->
  transcription_result fetched = Return text ->
  has_text text = false ->
  exists st', step st (Transcribed i fetched) = Some (Return st') /\
              failed_run st i st'.
Proof.
  intros Hi Hres Hnone. apply has_text_false in Hnone as [e He].
  simpl. rewrite Hi. eexists. split; [reflexivity|].
  unfold onstop_transcribed. rewrite Hres. simpl.
  destruct (truthy text); simpl; [rewrite He|]; apply failed_run_intro.
Qed.

Lemma transcribed_success st i fetched text :
  inflight st !! i = Some AwaitTranscription ->
  transcription_result fetched = Return text ->
  truthy text = true -> has_text text = true ->
  exists st', step st (Transcribed i fetched) = Some (Return st') /\
              calls st' = (calls st ++ [CallGeneration (generateBody text)])%list /\
              inflight st' = <[i := AwaitGeneration]> (inflight st) /\
              isProcessing st' = isProcessing st /\
              isPlaying st' = isPlaying st /\
              isRecording st' = isRecording st /\ error st' = error st /\
              utterances st' = utterances st.
Proof.
  intros Hi Hres Htruthy Htext. apply has_text_true in Htext as [empty He].
  simpl. rewrite Hi. eexists. split; [reflexivity|].
  unfold onstop_transcribed. rewrite Hres. simpl. rewrite Htruthy. simpl.
  rewrite He. simpl. repeat split.
Qed.

Lemma generated_success st i fetched reply :
  inflight st !! i = Some AwaitGeneration ->
  generation_result fetched = Return reply ->
  has_text reply = true ->
  exists st', step st (Generated i fetched) = Some (Return st') /\
              isPlaying st' = true /\ isProcessing st' = false /\
              isRecording st' = isRecording st /\ error st' = error st /\
              utterances st' = (utterances st ++ [reply])%list /\
              calls st' = (calls st ++ [CallSpeak reply])%list /\
              inflight st' = delete i (inflight st).
Proof.
  intros Hi Hok Htext. apply has_text_true in Htext as [empty He].
  simpl. rewrite Hi. eexists. split; [reflexivity|].
  unfold onstop_generated. rewrite Hok. simpl. unfold speak. rewrite He.
  repeat split.
Qed.

(** A reply that has no text cannot be made into an utterance: the run
    ends on the failure path and nothing is queued. *)
Lemma generated_without_text st i fetched reply :
  inflight st !! i = Some AwaitGeneration ->
  generation_result fetched = Return reply ->
  has_text reply = false ->
  exists st', step st (Generated i fetched) = Some (Return st') /\
              failed_run st i st'.
Proof.
  intros Hi Hok Hnone. apply has_text_false in Hnone as [e He].
  simpl. rewrite Hi. eexists. split; [reflexivity|].
  unfold onstop_generated. rewrite Hok. simpl. unfold speak. rewrite He.
  apply failed_run_intro.
Qed.


Lemma stop_recording_effect st :
  ref_recording st -> isRecording st = true ->
  exists r live st',
    mediaRecorderRef st = Some r /\
    recorders st !! r = Some {| rec_state := rec_recording; tracks_live := live |} /\
    stopRecording st = Return st' /\
    recorders st' !! r = Some {| rec_state := rec_stopping; tracks_live := false |} /\
    isRecording st' = false /\
    isPlaying st' = isPlaying st /\ isProcessing st' = isProcessing st /\
    error st' = error st /\
    micRequests st' = micRequests st /\ utterances st' = utterances st /\
    inflight st' = inflight st /\ calls st' = calls st.
Proof.
  intros Hwf Hrec. destruct (Hwf Hrec) as (r & [s live] & Href & Hlook & Hs).
  simpl in Hs. subst s. exists r, live.
  unfold stopRecording, recorder_stop. rewrite Href, Hrec, Hlook. simpl.
  eexists. split; [reflexivity|]. split; [reflexivity|]. split; [reflexivity|].
  split; [|repeat split].
  exact (lookup_alter_same end_tracks _ r _
           (lookup_alter_same (with_state rec_stopping) _ r _ Hlook)).
Qed.

(** In a state that respects the discipline of patient runs, the event
    after a moment of processing cannot raise the recording flag. *)
Lemma processing_step_not_recording st e st' :
  exclusive st -> isProcessing st = true ->
  match e with Click => quiescent st | _ => true end = true ->
  step st e = Some (Return st') ->
  isRecording st' = false.
Proof.
  intros [Hsum Hproc] Hp Hpatient Hstep. specialize (Hproc Hp).
  assert (1 <= length (inflight st))%nat as Hlen
    by (destruct (inflight st); [congruence | simpl; lia]).
  assert (isRecording st = false) as Hrec
    by (destruct (isRecording st); [simpl in Hsum; lia | reflexivity]).
  destruct e as [|granted|r data|r|i fetched|i fetched| | |failure]; simpl in Hstep.
  - apply quiescent_true in Hpatient as (_ & _ & Hin). congruence.
  - destruct (micRequests st) as [|n] eqn:Emic; [discriminate | lia].
  - on_chunk Hstep; exact Hrec.
  - destruct (recorders st !! r) as [[[] live]|] eqn:Er; try discriminate.
    pose proof (stopping_lookup _ _ _ Er eq_refl). lia.
  - destruct (inflight st !! i) as [[]|]; try discriminate.
    injection Hstep as <-. unfold onstop_transcribed.
    destruct (let* text := transcription_result fetched in _); exact Hrec.
  - destruct (inflight st !! i) as [[]|]; try discriminate.
    injection Hstep as <-. unfold onstop_generated.
    destruct (generation_result fetched) as [reply|]; simpl;
      [unfold speak; destruct (text_empty reply)|]; exact Hrec.
  - on_utterance Hstep. exact Hrec.
  - on_utterance Hstep. exact Hrec.
  - destruct (micRequests st) as [|n] eqn:Emic; [discriminate | lia].
Qed.

Lemma patient_app st es1 es2 mid :
  patient st (es1 ++ es2) = true -> run st es1 = Some mid ->
  patient mid es2 = true.
Proof.
  revert st. induction es1 as [|e es1 IH]; intros st Hpat Hrun; simpl in *.
  - congruence.
  - apply andb_true_iff in Hpat as [_ Hrest].
    destruct (step st e) as [[next|]|]; try discriminate. eauto.
Qed.

Lemma phase_processing st : phase_of st = Processing -> isProcessing st = true.
Proof.
  unfold phase_of. destruct (isProcessing st); [reflexivity|].
  destruct (isRecording st); [discriminate|].
  destruct (isPlaying st); discriminate.
Qed.

Lemma phase_recording st : phase_of st = Recording -> isRecording st = true.
Proof.
  unfold phase_of. destruct (isProcessing st); [discriminate|].
  destruct (isRecording st); [reflexivity|].
  destruct (isPlaying st); discriminate.
Qed.

(** ** A sample conversation *)

(** The scenario of the specification: the transcript "hello" is sent on,
    "Hi there" is spoken, and the session ends idle with no error. *)
Example conversation_ends_idle :
  exists st, run initial conversation = Some st /\
             phase_of st = Idle /\ error st = None /\
             calls st =
               [CallTranscription (requestBody [x1a; x45; xdf; xa3]);
                CallGeneration (generateBody (Str "hello"));
                CallSpeak (Str "Hi there")] /\
             content (requestBody [x1a; x45; xdf; xa3]) = "GkXfow==".
Proof. eexists. split; [vm_compute; reflexivity|]. repeat split. Qed.

(** Each kind of outstanding work matters: a press while a microphone
    request is pending, or while a stopped recorder still owes its stop
    event, also ends with the recording and processing flags both raised. *)
Example press_while_microphone_pending :
  exists st,
    run initial [Click; Click; MicSettled true; Click; RecorderStopped 0;
                 MicSettled true] = Some st /\
    isRecording st = true /\ isProcessing st = true.
Proof. eexists. split; [vm_compute; reflexivity|]. split; reflexivity. Qed.

Example press_while_recorder_stopping :
  exists st,
    run initial [Click; MicSettled true; Click; Click; RecorderStopped 0;
                 MicSettled true] = Some st /\
    isRecording st = true /\ isProcessing st = true.
Proof. eexists. split; [vm_compute; reflexivity|]. split; reflexivity. Qed.

(** ** The claims *)

(** C1, as stated, fails: [handleButtonClick] never reads the processing
    flag.  After a recording has been stopped and its pipeline is in
    flight (phase Processing), a further press requests the microphone
    again, and when it is granted the recording flag is raised next to
    the processing flag. *)
Lemma press_while_processing_overlaps :
  exists st st',
    run initial record_and_stop = Some st /\
    phase_of st = Processing /\
    run st [Click; MicSettled true] = Some st' /\
    recorders st' !! 1%nat =
      Some {| rec_state := rec_recording; tracks_live := true |} /\
    isRecording st' = true /\ isProcessing st' = true /\ raised st' = 2%nat.
Proof.
  do 2 eexists. split; [vm_compute; reflexivity|].
  split; [reflexivity|]. split; [vm_compute; reflexivity|].
  repeat split.
Qed.

(** C1, amended: in every run in which the trigger action only arrives
    when nothing is outstanding (no microphone request pending, no
    recorder owing its stop event, no pipeline in flight), at most one of
    the three flags is raised at every instant, and no instant of
    Processing is followed by an instant of Recording.  The trigger
    handler itself does not look at the processing flag: with neither the
    speaking nor the recording flag raised it requests the microphone,
    also during Processing. *)
Theorem patient_flags_exclusive (es : list event)
    (Hpatient : patient initial es = true) :
  (forall n st, run initial (take n es) = Some st -> (raised st <= 1)%nat) /\
  (forall n st st',
      run initial (take n es) = Some st ->
      run initial (take (S n) es) = Some st' ->
      phase_of st = Processing -> phase_of st' <> Recording) /\
  (forall st,
      phase_of st = Processing ->
      isPlaying st = false -> isRecording st = false ->
      step st Click = Some (Return (startRecording st)) /\
      micRequests (startRecording st) = S (micRequests st)).
Proof.
  assert (forall n st, run initial (take n es) = Some st -> exclusive st) as Hex.
  { intros n st Hrun.
    eapply patient_run_exclusive; [apply exclusive_initial | | exact Hrun].
    apply patient_take. exact Hpatient. }
  split; [|split].
  - intros n st Hrun. apply exclusive_raised. eauto.
  - intros n st st' Hrun Hnext Hphase Hrec.
    apply phase_processing in Hphase. apply phase_recording in Hrec.
    destruct (es !! n) as [e|] eqn:En.
    + rewrite (take_S_r _ _ _ En), run_app, Hrun in Hnext. simpl in Hnext.
      destruct (step st e) as [[next|]|] eqn:Estep; try discriminate.
      injection Hnext as ->.
      assert (patient st [e] = true) as Hone.
      { eapply patient_app; [|exact Hrun].
        rewrite <- (take_S_r _ _ _ En). apply patient_take. exact Hpatient. }
      simpl in Hone. apply andb_true_iff in Hone as [Hclick _].
      pose proof (processing_step_not_recording _ _ _ (Hex _ _ Hrun) Hphase Hclick Estep).
      congruence.
    + apply lookup_ge_None in En.
      rewrite (take_ge es n), (take_ge es (S n)) in * by lia.
      assert (st' = st) as -> by congruence.
      pose proof (exclusive_raised _ (Hex (length es) st
        ltac:(rewrite take_ge by lia; exact Hrun))) as Hle.
      unfold raised in Hle. rewrite Hphase, Hrec in Hle. simpl in Hle. lia.
  - intros st _ Hplay Hrec. simpl. unfold handleButtonClick.
    rewrite Hplay, Hrec. split; reflexivity.
Qed.

Lemma patient_flags_exclusive_witness :
  patient initial conversation = true /\
  (forall n st,
      run initial (take n conversation) = Some st -> (raised st <= 1)%nat) /\
  phase_of (after (take 5 conversation)) = Processing /\
  phase_of (after (take 6 conversation)) <> Recording.
Proof.
  assert (patient initial conversation = true) as Hpatient
    by (vm_compute; reflexivity).
  destruct (patient_flags_exclusive conversation Hpatient) as (Hflags & Hnext & _).
  split; [exact Hpatient|]. split; [exact Hflags|].
  split; [vm_compute; reflexivity|].
  apply (Hnext 5%nat (after (take 5 conversation))); vm_compute; reflexivity.
Defined.



(** C3: whatever the recognition request settles to, if the result set
    is absent (the request failed, the status was not a success, the body
    did not parse, or [results] is missing or falsy) or empty, the
    Transcription Client throws its failure and so returns no string at
    all; and when the result set is a non-empty array whose first result
    has a first alternative, the client returns the transcript of that
    alternative: exactly that string when it is a string, and in general
    the value [transcript || ''] of line 55. *)
Theorem transcription_client_result
    (fetch : RecognizeRequest -> completion response) (audioBlob : blob) :
  (no_results (fetch (requestBody audioBlob)) ->
     convertSpeechToText fetch audioBlob = Throw stt_failure /\
     convertSpeechToText fetch audioBlob <> Return (Str "")) /\
  (forall first more best others t,
     result_set (fetch (requestBody audioBlob)) = Some (Arr (first :: more)) ->
     get first "alternatives" = Return (Arr (best :: others)) ->
     get best "transcript" = Return (Str t) ->
     convertSpeechToText fetch audioBlob = Return (Str t)) /\
  (forall first more best others v,
     result_set (fetch (requestBody audioBlob)) = Some (Arr (first :: more)) ->
     get first "alternatives" = Return (Arr (best :: others)) ->
     get best "transcript" = Return v ->
     convertSpeechToText fetch audioBlob = Return (or_else v (Str ""))).
Proof.
  unfold convertSpeechToText. split; [|split].
  - intros Hnone. rewrite (transcription_no_results _ Hnone).
    split; [reflexivity | discriminate].
  - intros first more best others t Hset Halt Hbest.
    rewrite <- (or_else_text t).
    eapply transcription_first_alternative; eassumption.
  - intros first more best others v. apply transcription_first_alternative.
Qed.

Lemma transcription_client_result_witness :
  convertSpeechToText (fun _ => ok_json (Obj [("results", Arr [])])) [] =
    Throw stt_failure /\
  convertSpeechToText (fun _ => ok_json heard_hello) [] = Return (Str "hello").
Proof.
  split.
  - apply (transcription_client_result
             (fun _ => ok_json (Obj [("results", Arr [])])) []).
    right. reflexivity.
  - eapply (proj1 (proj2 (transcription_client_result
                            (fun _ => ok_json heard_hello) [])));
      reflexivity.
Defined.

(** C4, as stated, fails: a response with a success status whose body is
    the JSON value [null] has no candidate text, yet line 87 reads
    [data.candidates] without guarding [data], the read throws, and the
    Response Client fails; the pipeline records the error and nothing is
    spoken. *)
Lemma null_body_is_a_failure :
  let fetched := ok_json Null in
  text_part fetched = None /\
  generation_result fetched = Throw ai_failure /\
  exists st st',
    run initial (record_and_stop ++ [Transcribed 0 (ok_json heard_hello)])%list
      = Some st /\
    step st (Generated 0 fetched) = Some (Return st') /\
    error st' = Some processing_error /\
    isPlaying st' = false /\ utterances st' = [].
Proof.
  split; [reflexivity|]. split; [reflexivity|].
  do 2 eexists. split; [vm_compute; reflexivity|].
  split; [vm_compute; reflexivity|]. repeat split.
Qed.

(** C4, amended: for every response to a generation request with a
    success status whose body parses to a value other than [null], if the
    text part of the first candidate is absent or falsy the Response
    Client returns the fixed fallback string instead of failing; the
    pipeline then raises the speaking flag, lowers the processing flag,
    hands exactly the fallback string to the speech engine and leaves the
    error message as it was. *)
Theorem fallback_reply_is_spoken
    (st : state) (i : nat) (r : response) (data : value)
    (Htask : inflight st !! i = Some AwaitGeneration)
    (Hok : ok r = true) (Hjson : json r = Return data)
    (Hdata : nullish data = false)
    (Habsent : forall text, candidate_text data = Return text -> truthy text = false) :
  generation_result (Return r) = Return (Str fallback_reply) /\
  (forall fetch text,
      has_text text = true ->
      fetch (generateBody text) = Return r ->
      getGeminiResponse fetch text = Return (Str fallback_reply)) /\
  exists st',
    step st (Generated i (Return r)) = Some (Return st') /\
    isPlaying st' = true /\
    isProcessing st' = false /\
    error st' = error st /\
    utterances st' = (utterances st ++ [Str fallback_reply])%list /\
    calls st' = (calls st ++ [CallSpeak (Str fallback_reply)])%list.
Proof.
  pose proof (generation_fallback r data Hok Hjson Hdata Habsent) as Hgen.
  split; [exact Hgen|]. split.
  - intros fetch text Htext Hfetch.
    rewrite getGeminiResponse_sent by exact Htext. rewrite Hfetch. exact Hgen.
  - destruct (generated_success st i _ _ Htask Hgen eq_refl)
      as (st' & Hstep & Hplay & Hproc & _ & Herr & Hutt & Hcalls & _).
    exists st'. repeat split; assumption.
Qed.

Lemma fallback_reply_is_spoken_witness :
  let st := after (record_and_stop ++ [Transcribed 0 (ok_json heard_hello)]) in
  inflight st !! 0%nat = Some AwaitGeneration /\
  exists st',
    step st (Generated 0 (ok_json (Obj []))) = Some (Return st') /\
    isPlaying st' = true /\
    utterances st' = [Str fallback_reply].
Proof.
  intros st. split; [vm_compute; reflexivity|].
  destruct (fallback_reply_is_spoken st 0%nat
              {| ok := true; json := Return (Obj []) |} (Obj []))
    as (_ & _ & st' & Hstep & Hplay & _ & _ & Hutt & _).
  - vm_compute; reflexivity.
  - reflexivity.
  - reflexivity.
  - reflexivity.
  - intros text [= <-]. reflexivity.
  - exists st'. split; [exact Hstep|]. split; [exact Hplay | exact Hutt].
Defined.







(** C7, as stated, fails: the cancel lowers the speaking flag only.  When
    a recording was started while the first run was being processed, the
    reply of the first run is spoken while the recording flag is raised,
    and the trigger action that cancels the playback leaves the session
    recording, not idle. *)
Lemma cancel_during_second_recording_is_not_idle :
  exists st st',
    run initial (impatient ++ [Transcribed 0 (ok_json heard_hello);
                               Generated 0 (ok_json reply_hi)])%list = Some st /\
    isPlaying st = true /\
    step st Click = Some (Return st') /\
    isPlaying st' = false /\ error st' = None /\
    isRecording st' = true /\ phase_of st' = Recording.
Proof.
  do 2 eexists. split; [vm_compute; reflexivity|].
  split; [reflexivity|]. split; [vm_compute; reflexivity|]. repeat split.
Qed.

(** C7, amended: in every state with the speaking flag raised, a trigger
    action empties the queue of the speech engine, lowers the speaking
    flag and changes neither the error message nor the other two flags;
    the session is idle afterwards when neither the recording nor the
    processing flag was raised. *)
Theorem cancel_playback (st : state) (Hplay : isPlaying st = true) :
  exists st',
    step st Click = Some (Return st') /\
    st' = stopSpeaking st /\
    utterances st' = [] /\
    isPlaying st' = false /\
    error st' = error st /\
    isRecording st' = isRecording st /\
    isProcessing st' = isProcessing st /\
    (isRecording st = false -> isProcessing st = false -> phase_of st' = Idle).
Proof.
  exists (stopSpeaking st). simpl. unfold handleButtonClick. rewrite Hplay.
  repeat split. intros Hrec Hproc. unfold phase_of. simpl.
  rewrite Hproc, Hrec. reflexivity.
Qed.

Lemma cancel_playback_witness :
  let st := after (record_and_stop ++ [Transcribed 0 (ok_json heard_hello);
                                       Generated 0 (ok_json reply_hi)]) in
  isPlaying st = true /\
  exists st', step st Click = Some (Return st') /\
              error st' = None /\ phase_of st' = Idle.
Proof.
  intros st. split; [vm_compute; reflexivity|].
  destruct (cancel_playback st) as (st' & Hstep & _ & _ & _ & Herr & _ & _ & Hidle).
  - vm_compute; reflexivity.
  - exists st'. split; [exact Hstep|]. split.
    + rewrite Herr. vm_compute; reflexivity.
    + apply Hidle; vm_compute; reflexivity.
Defined.

(** C8, as stated, fails: line 123 tests the transcript for truthiness,
    not for emptiness of its text.  The transcript is whatever the
    service put under [transcript]; an empty array is truthy, so it
    passes the test, the Response Client is called with it, and the text
    that the template literal of line 74 puts into the prompt is the
    empty string. *)
Lemma empty_transcript_reaches_response_client :
  let heard :=
    ok_json (Obj [("results",
                   Arr [Obj [("alternatives",
                              Arr [Obj [("transcript", Arr [])]])]])]) in
  transcription_result heard = Return (Arr []) /\
  truthy (Arr []) = true /\
  text_empty (Arr []) = Return true /\
  exists st st',
    run initial record_and_stop = Some st /\
    step st (Transcribed 0 heard) = Some (Return st') /\
    error st' = None /\
    inflight st' = [AwaitGeneration] /\
    calls st' = [CallTranscription (requestBody []);
                 CallGeneration (generateBody (Arr []))].
Proof.
  intros heard. do 3 (split; [reflexivity|]).
  do 2 eexists. split; [vm_compute; reflexivity|].
  split; [vm_compute; reflexivity|]. repeat split.
Qed.

(** C8, amended: the handler never calls the Response Client with a
    falsy transcript.  When the Transcription Client returns a falsy
    value, which can only be the empty string, or a value that has no
    text, the run takes the failure path at once: the generic error is
    set, the run is over and no request has been added.  Every other
    transcript is sent on.  So, in every run, each request made of the
    Response Client carries a truthy value that has a text, and the text
    is not empty when the value is a string; it is empty only for an
    array of at most one element. *)
Theorem no_generation_for_falsy_transcript (es : list event) (st : state)
    (Hrun : run initial es = Some st) :
  (forall request,
      In (CallGeneration request) (calls st) ->
      truthy (spoken request) = true /\ spoken request <> Str "" /\
      has_text (spoken request) = true /\
      (forall s, spoken request = Str s ->
                 text_empty (spoken request) = Return false) /\
      (text_empty (spoken request) = Return true ->
       exists items, spoken request = Arr items /\ (length items <= 1)%nat)) /\
  (forall i fetched text,
      inflight st !! i = Some AwaitTranscription ->
      transcription_result fetched = Return text ->
      (truthy text = false -> text = Str "") /\
      (truthy text = false \/ has_text text = false ->
       exists st',
         step st (Transcribed i fetched) = Some (Return st') /\
         calls st' = calls st /\
         error st' = Some processing_error /\
         isProcessing st' = false /\
         inflight st' = delete i (inflight st)) /\
      (truthy text = true -> has_text text = true ->
       exists st',
         step st (Transcribed i fetched) = Some (Return st') /\
         calls st' = (calls st ++ [CallGeneration (generateBody text)])%list /\
         error st' = error st /\
         inflight st' = <[i := AwaitGeneration]> (inflight st))).
Proof.
  split.
  - intros request Hin.
    destruct (reachable_calls_sound st (ex_intro _ es Hrun)) as [Hcalls _].
    rewrite Forall_forall in Hcalls.
    destruct (Hcalls _ (proj2 (list_elem_of_In _ _) Hin)) as [Htruthy Htext].
    split; [exact Htruthy|]. split; [apply truthy_not_empty; exact Htruthy|].
    split; [exact Htext|]. split.
    + intros s Hs. rewrite Hs in *. apply truthy_string_text. exact Htruthy.
    + apply empty_text_of_truthy. exact Htruthy.
  - intros i fetched text Htask Hres. split; [|split].
    + intros Hfalsy. destruct (transcription_result_returns _ _ Hres); congruence.
    + intros Hnone.
      assert (exists st', step st (Transcribed i fetched) = Some (Return st') /\
                          failed_run st i st') as (st' & Hstep & Hfail).
      { destruct Hnone as [Hfalsy | Hnone].
        - apply transcribed_failure; [exact Htask|].
          intros text' Hres'. congruence.
        - eapply transcribed_without_text; eassumption. }
      destruct Hfail as (Hproc & _ & Herr & _ & Hcalls & _ & Hin).
      exists st'. repeat split; assumption.
    + intros Htruthy Htext.
      destruct (transcribed_success st i fetched text Htask Hres Htruthy Htext)
        as (st' & Hstep & Hcalls & Hin & _ & _ & _ & Herr & _).
      exists st'. repeat split; assumption.
Qed.

Lemma no_generation_for_falsy_transcript_witness :
  (let es := (record_and_stop ++ [Transcribed 0 (ok_json heard_hello)])%list in
   run initial es = Some (after es) /\
   calls (after es) = [CallTranscription (requestBody []);
                       CallGeneration (generateBody (Str "hello"))] /\
   forall request,
     In (CallGeneration request) (calls (after es)) ->
     truthy (spoken request) = true /\ spoken request <> Str "" /\
     has_text (spoken request) = true) /\
  (let st := after record_and_stop in
   let silence :=
     ok_json (Obj [("results",
                    Arr [Obj [("alternatives", Arr [Obj [("transcript", Str "")]])]])]) in
   run initial record_and_stop = Some st /\
   transcription_result silence = Return (Str "") /\
   exists st',
     step st (Transcribed 0 silence) = Some (Return st') /\
     calls st' = calls st /\ error st' = Some processing_error).
Proof.
  split.
  - intros es.
    assert (run initial es = Some (after es)) as Hrun by (vm_compute; reflexivity).
    split; [exact Hrun|]. split; [vm_compute; reflexivity|].
    intros request Hin.
    destruct (proj1 (no_generation_for_falsy_transcript es (after es) Hrun)
                request Hin) as (Htruthy & Hne & Htext & _).
    split; [exact Htruthy|]. split; [exact Hne | exact Htext].
  - intros st silence.
    assert (run initial record_and_stop = Some st) as Hrun
      by (vm_compute; reflexivity).
    split; [exact Hrun|]. split; [reflexivity|].
    destruct (proj2 (no_generation_for_falsy_transcript record_and_stop st Hrun)
                0%nat silence (Str "")) as (_ & Hfails & _).
    + vm_compute; reflexivity.
    + reflexivity.
    + destruct Hfails as (st' & Hstep & Hcalls & Herr & _);
        [left; reflexivity|].
      exists st'. split; [exact Hstep|]. split; [exact Hcalls | exact Herr].
Defined.

(** C9, as stated, fails: nothing in the code ties the outcome to the
    payload.  A recording stopped with no chunk at all is sent with empty
    content, and when the service answers that request with a transcript
    the run goes on to the Response Client instead of failing. *)
Lemma empty_payload_can_be_transcribed :
  exists st st',
    run initial record_and_stop = Some st /\
    audioChunksRef st = [] /\
    calls st = [CallTranscription (requestBody [])] /\
    content (requestBody []) = "" /\
    step st (Transcribed 0 (ok_json heard_hello)) = Some (Return st') /\
    error st' = None /\
    isProcessing st' = true /\
    inflight st' = [AwaitGeneration] /\
    calls st' = [CallTranscription (requestBody []);
                 CallGeneration (generateBody (Str "hello"))].
Proof.
  do 2 eexists. split; [vm_compute; reflexivity|].
  do 3 (split; [reflexivity|]). split; [vm_compute; reflexivity|]. repeat split.
Qed.

(** C9, amended: when a recorder reports its stop and no chunk has been
    accumulated, the handler still sends a recognition request, with
    empty content, and is suspended on it.  Whatever that request settles
    to, the handler resumes and returns without letting an exception
    escape, and the only exception the Transcription Client itself can
    throw is its own failure.  The run ends on the failure path (the
    generic error is set, the processing and speaking flags are lowered
    and the Response Client is not called) exactly when the Transcription
    Client fails or returns a value that is falsy or has no text.  For
    every other answer, that is whenever the client returns a truthy
    value that has a text, be it a string or not and be its text empty
    or not, the run goes on to the Response Client as in any other
    run. *)
Theorem empty_recording_run
    (st : state) (r : nat) (live : bool) (fetched : completion response)
    (Hstopping : recorders st !! r =
                   Some {| rec_state := rec_stopping; tracks_live := live |})
    (Hempty : audioChunksRef st = []) :
  content (requestBody []) = "" /\
  (forall e, convertSpeechToText (fun _ => fetched) [] = Throw e -> e = stt_failure) /\
  exists st1,
    step st (RecorderStopped r) = Some (Return st1) /\
    isProcessing st1 = true /\
    calls st1 = (calls st ++ [CallTranscription (requestBody [])])%list /\
    inflight st1 = (inflight st ++ [AwaitTranscription])%list /\
    exists st2,
      step st1 (Transcribed (length (inflight st)) fetched) = Some (Return st2) /\
      ((forall text, transcription_result fetched = Return text ->
                     truthy text = false \/ has_text text = false) ->
       failed_run st1 (length (inflight st)) st2) /\
      (forall text, transcription_result fetched = Return text ->
                    truthy text = true -> has_text text = true ->
       calls st2 = (calls st1 ++ [CallGeneration (generateBody text)])%list /\
       inflight st2 = (inflight st ++ [AwaitGeneration])%list /\
       isProcessing st2 = true /\
       error st2 = error st).
Proof.
  split; [reflexivity|]. split.
  { intros e. unfold convertSpeechToText. apply transcription_result_throws. }
  simpl. rewrite Hstopping. eexists. split; [reflexivity|].
  split; [reflexivity|]. simpl. rewrite Hempty. simpl.
  split; [reflexivity|]. split; [reflexivity|].
  rewrite lookup_last. eexists. split; [reflexivity|].
  unfold onstop_transcribed.
  destruct (transcription_result fetched) as [text|e] eqn:E; simpl.
  - destruct (truthy text) eqn:Etruthy; simpl.
    + unfold has_text.
      destruct (text_empty text) as [empty|e] eqn:Econv; simpl.
      * split.
        -- intros Hfail.
           destruct (Hfail text eq_refl) as [H | H];
             [congruence | rewrite Econv in H; discriminate].
        -- intros text' [= <-] _ _. simpl.
           change (list_insert ?i ?x ?l) with (<[i := x]> l).
           rewrite insert_app_r_alt by lia. rewrite Nat.sub_diag.
           repeat split. rewrite Hempty. reflexivity.
      * split; [intros _; repeat split|].
        intros text' [= <-] _ Hconv. rewrite Econv in Hconv. discriminate.
    + split; [intros _; repeat split|].
      intros text' [= <-] Hconv. congruence.
  - split; [intros _; repeat split | discriminate].
Qed.

Lemma empty_recording_run_witness :
  let st := after [Click; MicSettled true; Click] in
  recorders st !! 0%nat =
    Some {| rec_state := rec_stopping; tracks_live := false |} /\
  audioChunksRef st = [] /\
  exists st1 st2,
    step st (RecorderStopped 0) = Some (Return st1) /\
    step st1 (Transcribed 0 (ok_json (Obj []))) = Some (Return st2) /\
    failed_run st1 0 st2.
Proof.
  intros st. split; [vm_compute; reflexivity|]. split; [vm_compute; reflexivity|].
  destruct (empty_recording_run st 0%nat false (ok_json (Obj [])))
    as (_ & _ & st1 & Hstep1 & _ & _ & _ & st2 & Hstep2 & Hfail & _).
  - vm_compute; reflexivity.
  - vm_compute; reflexivity.
  - exists st1, st2. split; [exact Hstep1|]. split; [exact Hstep2|].
    apply Hfail. intros text Htext. vm_compute in Htext. discriminate.
Defined.




(** ** The audio payload on the wire *)

Lemma list_ascii_of_string_app s1 s2 :
  list_ascii_of_string (s1 ++ s2) =
  (list_ascii_of_string s1 ++ list_ascii_of_string s2)%list.
Proof. induction s1 as [|c s1 IH]; simpl; [reflexivity | f_equal; exact IH]. Qed.

Lemma binary_string_chars buffer :
  list_ascii_of_string (binary_string buffer) = List.map ascii_of_byte buffer.
Proof.
  unfold binary_string.
  assert (forall acc,
    list_ascii_of_string
      (fold_left (fun data b => data ++ String (ascii_of_byte b) EmptyString)
                 buffer acc) =
    (list_ascii_of_string acc ++ List.map ascii_of_byte buffer)%list) as H.
  { induction buffer as [|b buffer IH]; intros acc; simpl.
    - rewrite app_nil_r. reflexivity.
    - rewrite IH, list_ascii_of_string_app. simpl.
      rewrite <- app_assoc. reflexivity. }
  apply H.
Qed.

Lemma base64_digit_value n :
  (n < 64)%N ->
  base64_value (base64_digit n) = n /\ Ascii.eqb (base64_digit n) "=" = false.
Proof.
  intros Hn.
  assert (forallb (fun k => (base64_value (base64_digit k) =? k)%N &&
                            negb (Ascii.eqb (base64_digit k) "="))
                  (List.map N.of_nat (seq 0 64)) = true) as Hall
    by (vm_compute; reflexivity).
  rewrite forallb_forall in Hall.
  specialize (Hall n). 
  assert (In n (List.map N.of_nat (seq 0 64))) as Hin.
  { apply in_map_iff. exists (N.to_nat n). split; [lia|]. apply in_seq. lia. }
  specialize (Hall Hin). apply andb_true_iff in Hall as [H1 H2].
  apply N.eqb_eq in H1. apply negb_true_iff in H2. auto.
Qed.

Lemma base64_group_digits a b c :
  (a < 256)%N -> (b < 256)%N -> (c < 256)%N ->
  let n := (a * 65536 + b * 256 + c)%N in
  (n / 262144 < 64)%N /\ ((n / 4096) mod 64 < 64)%N /\
  ((n / 64) mod 64 < 64)%N /\ (n mod 64 < 64)%N /\
  (n / 262144 * 4 + (n / 4096) mod 64 / 16 = a)%N /\
  (((n / 4096) mod 64) mod 16 * 16 + (n / 64) mod 64 / 4 = b)%N /\
  (((n / 64) mod 64) mod 4 * 64 + n mod 64 = c)%N.
Proof.
  intros Ha Hb Hc n. subst n.
  repeat split; try (apply N.mod_upper_bound; discriminate).
  all: zify; Z.to_euclidean_division_equations; lia.
Qed.

Lemma base64_ungroup_groups codes :
  Forall (fun k => (k < 256)%N) codes ->
  base64_ungroup (list_ascii_of_string (base64_groups codes)) = codes.
Proof.
  assert (forall n l, (length l <= n)%nat ->
            Forall (fun k => (k < 256)%N) l ->
            base64_ungroup (list_ascii_of_string (base64_groups l)) = l)
    as H; [|apply (H (length codes)); lia].
  clear codes. induction n as [|n IH]; intros codes Hlen Hall.
  { destruct codes; [reflexivity | simpl in Hlen; lia]. }
  destruct codes as [|a [|b [|c rest]]].
  - reflexivity.
  - inversion Hall as [|? ? Ha _]; subst.
    destruct (base64_group_digits a 0 0 Ha) as (H1 & H2 & _ & _ & E1 & _);
      [reflexivity | reflexivity |].
    cbn zeta in H1, H2, E1. rewrite !N.add_0_r in H1, H2, E1.
    cbn [base64_groups list_ascii_of_string base64_ungroup].
    destruct (base64_digit_value _ H1) as [V1 _].
    destruct (base64_digit_value _ H2) as [V2 _].
    cbn [Ascii.eqb Bool.eqb]. rewrite V1, V2, E1. reflexivity.
  - inversion Hall as [|? ? Ha Hall']; subst.
    inversion Hall' as [|? ? Hb _]; subst.
    destruct (base64_group_digits a b 0 Ha Hb) as (H1 & H2 & H3 & _ & E1 & E2 & _);
      [reflexivity |].
    cbn zeta in H1, H2, H3, E1, E2. rewrite !N.add_0_r in H1, H2, H3, E1, E2.
    cbn [base64_groups list_ascii_of_string base64_ungroup].
    destruct (base64_digit_value _ H1) as [V1 _].
    destruct (base64_digit_value _ H2) as [V2 _].
    destruct (base64_digit_value _ H3) as [V3 N3].
    rewrite N3. cbn [Ascii.eqb Bool.eqb]. rewrite V1, V2, V3, E1, E2. reflexivity.
  - inversion Hall as [|? ? Ha Hall']; subst.
    inversion Hall' as [|? ? Hb Hall'']; subst.
    inversion Hall'' as [|? ? Hc Hrest]; subst.
    destruct (base64_group_digits a b c Ha Hb Hc)
      as (H1 & H2 & H3 & H4 & E1 & E2 & E3).
    cbn zeta in H1, H2, H3, H4, E1, E2, E3.
    cbn [base64_groups list_ascii_of_string base64_ungroup].
    destruct (base64_digit_value _ H1) as [V1 _].
    destruct (base64_digit_value _ H2) as [V2 _].
    destruct (base64_digit_value _ H3) as [V3 N3].
    destruct (base64_digit_value _ H4) as [V4 N4].
    rewrite N3, N4, V1, V2, V3, V4, E1, E2, E3.
    rewrite IH; [reflexivity | simpl in Hlen; lia | exact Hrest].
Qed.

Lemma base64_groups_length codes :
  String.length (base64_groups codes) = (4 * ((length codes + 2) / 3))%nat.
Proof.
  assert (forall n l, (length l <= n)%nat ->
            String.length (base64_groups l) = (4 * ((length l + 2) / 3))%nat)
    as H; [|apply (H (length codes)); lia].
  clear codes. induction n as [|n IH]; intros codes Hlen.
  { destruct codes; [reflexivity | simpl in Hlen; lia]. }
  destruct codes as [|a [|b [|c rest]]]; try reflexivity.
  cbn [base64_groups String.length length]. cbn zeta.
  cbn [String.length]. rewrite IH by (simpl in Hlen; lia).
  replace (S (S (S (length rest))) + 2)%nat with (length rest + 2 + 1 * 3)%nat by lia.
  rewrite Nat.div_add by discriminate. lia.
Qed.

Lemma payload_codes (audioBlob : blob) :
  List.map (fun k => byte_of_ascii (ascii_of_N k))
    (List.map N_of_ascii (List.map ascii_of_byte audioBlob)) = audioBlob.
Proof.
  induction audioBlob as [|b rest IH]; simpl; [reflexivity|].
  rewrite ascii_N_embedding, byte_of_ascii_of_byte, IH. reflexivity.
Qed.

Lemma payload_codes_bounded (audioBlob : blob) :
  Forall (fun k => (k < 256)%N)
    (List.map N_of_ascii (List.map ascii_of_byte audioBlob)).
Proof.
  induction audioBlob as [|b rest IH]; simpl; constructor.
  - apply N_ascii_bounded.
  - exact IH.
Qed.

Lemma content_read_back (audioBlob : blob) :
  List.map (fun k => byte_of_ascii (ascii_of_N k))
    (base64_ungroup (list_ascii_of_string (content (requestBody audioBlob)))) =
  audioBlob.
Proof.
  simpl. unfold btoa. rewrite binary_string_chars.
  rewrite base64_ungroup_groups by apply payload_codes_bounded.
  apply payload_codes.
Qed.

(** X1: the [content] of the recognition request is the audio, nothing
    lost: reading the base64 text back gives the bytes of the blob, so two
    different blobs never give the same content, and the content is four
    characters for every three bytes, rounded up. *)
Theorem audio_content_faithful (audioBlob : blob) :
  List.map (fun k => byte_of_ascii (ascii_of_N k))
    (base64_ungroup (list_ascii_of_string (content (requestBody audioBlob)))) =
  audioBlob /\
  (forall other : blob,
      content (requestBody audioBlob) = content (requestBody other) ->
      audioBlob = other) /\
  String.length (content (requestBody audioBlob)) =
    (4 * ((length audioBlob + 2) / 3))%nat.
Proof.
  split; [apply content_read_back|]. split.
  - intros other Hsame.
    rewrite <- (content_read_back audioBlob), <- (content_read_back other), Hsame.
    reflexivity.
  - simpl. unfold btoa. rewrite base64_groups_length.
    rewrite binary_string_chars, !length_map. reflexivity.
Qed.

(** ** What every run keeps *)

Lemma audio_content_faithful_witness :
  content (requestBody [x48; x69]) = "SGk=" /\
  (forall other : blob,
      content (requestBody [x48; x69]) = content (requestBody other) ->
      [x48; x69] = other) /\
  [x48; x69] = [x48; x69].
Proof.
  destruct (audio_content_faithful [x48; x69]) as (_ & Hsame & _).
  split; [reflexivity|]. split; [exact Hsame|].
  apply Hsame. reflexivity.
Defined.

Lemma tally_app {A} (p : A -> bool) (l1 l2 : list A) :
  tally p (l1 ++ l2) = (tally p l1 + tally p l2)%nat.
Proof. induction l1 as [|a l1 IH]; simpl; [reflexivity | rewrite IH; lia]. Qed.

Lemma tally_alter {A} (p : A -> bool) (f : A -> A) (l : list A) i x :
  l !! i = Some x ->
  (tally p (alter f i l) + Nat.b2n (p x) = tally p l + Nat.b2n (p (f x)))%nat.
Proof.
  revert i. induction l as [|a l IH]; intros [|i]; simpl; try discriminate.
  - intros [= ->]. lia.
  - intros H. specialize (IH _ H).
    change (alter f i l) with (list_alter f i l) in IH. lia.
Qed.

Lemma tally_insert {A} (p : A -> bool) (l : list A) i x y :
  l !! i = Some x ->
  (tally p (<[i:=y]> l) + Nat.b2n (p x) = tally p l + Nat.b2n (p y))%nat.
Proof.
  revert i. induction l as [|a l IH]; intros [|i]; simpl; try discriminate.
  - intros [= ->]. lia.
  - intros H. specialize (IH _ H). lia.
Qed.

Lemma tally_delete {A} (p : A -> bool) (l : list A) i x :
  l !! i = Some x ->
  (tally p (delete i l) + Nat.b2n (p x) = tally p l)%nat.
Proof.
  revert i. induction l as [|a l IH]; intros [|i]; simpl; try discriminate.
  - intros [= ->]. lia.
  - intros H. specialize (IH _ H). lia.
Qed.

Lemma Forall_altered {A} (P : A -> Prop) (f : A -> A) (l : list A) i :
  Forall P l -> (forall x, l !! i = Some x -> P (f x)) -> Forall P (alter f i l).
Proof.
  intros Hall. revert i. induction Hall as [|a l Ha Hall IH]; intros [|i] Hf; simpl.
  - constructor.
  - constructor.
  - constructor; [apply Hf; reflexivity | exact Hall].
  - constructor; [exact Ha | apply IH; intros x Hx; apply Hf; exact Hx].
Qed.

Lemma alter_twice {A} (f g : A -> A) (l : list A) i :
  alter g i (alter f i l) = alter (fun x => g (f x)) i l.
Proof.
  revert i. induction l as [|a l IH]; intros [|i]; simpl; try reflexivity.
  f_equal. apply IH.
Qed.

Lemma sane_initial : sane initial.
Proof.
  constructor; simpl; try discriminate; try lia; try (constructor; fail).
  left. reflexivity.
Qed.

Ltac fold_alter :=
  repeat match goal with
  | |- context [list_alter ?f ?k ?l] =>
      change (list_alter f k l) with (alter f k l)
  end.

(** The routine part of showing that a handler keeps [sane]. *)
Ltac sane_fields :=
  constructor; simpl; fold_alter;
  rewrite ?alter_last, ?tally_app, ?length_app; simpl;
  auto; try lia; try (intros; congruence);
  try (unfold known_error; auto 10; fail).

Lemma snoc_not_nil {A} (l : list A) (x : A) : (l ++ [x])%list <> [].
Proof. destruct l; discriminate. Qed.

Lemma sane_step st e st' :
  sane st -> step st e = Some (Return st') -> sane st'.
Proof.
  intros [He Hc Hr Ht Hp Hq Hst Hg Hsp Hqu] Hstep.
  destruct e as [|granted|r data|r|i fetched|i fetched| | |failure]; simpl in Hstep.
  - (* Click *)
    unfold handleButtonClick in Hstep.
    destruct (isPlaying st) eqn:Eplay.
    { injection Hstep as <-. sane_fields. }
    destruct (isRecording st) eqn:Erec;
      [|injection Hstep as <-; sane_fields].
    unfold stopRecording in Hstep. rewrite Erec in Hstep.
    destruct (mediaRecorderRef st) as [r|];
      [|injection Hstep as <-; sane_fields].
    unfold recorder_stop in Hstep.
    destruct (recorders st !! r) as [[[] live]|] eqn:Er; try discriminate.
    simpl in Hstep. injection Hstep as <-.
    pose proof (alter_twice (with_state rec_stopping) end_tracks (recorders st) r)
      as Etwice.
    pose proof (tally_alter is_inactive
                  (fun x => end_tracks (with_state rec_stopping x)) _ _ _ Er) as H.
    simpl in H. sane_fields.
    + unfold ref_newest in *. simpl. fold_alter. rewrite !length_alter. exact Hr.
    + rewrite Etwice. apply Forall_altered; [exact Ht|]. intros x _. reflexivity.
    + rewrite Etwice. lia.
  - (* MicSettled *)
    destruct (micRequests st) as [|n]; [discriminate|].
    injection Hstep as <-. destruct granted; sane_fields.
    + unfold ref_newest. simpl. fold_alter.
      rewrite alter_last, length_app. simpl. rewrite Nat.add_1_r. reflexivity.
    + apply Forall_app. split; [exact Ht|]. repeat constructor.
  - (* DataAvailable *)
    destruct (recorders st !! r) as [rec|]; [|discriminate].
    destruct (delivering rec); [|discriminate].
    injection Hstep as <-. unfold ondataavailable.
    destruct (0 <? length data)%nat eqn:Esize; sane_fields.
    apply Forall_app. split; [exact Hc|]. repeat constructor.
    intros ->. discriminate.
  - (* RecorderStopped *)
    destruct (recorders st !! r) as [[[] live]|] eqn:Er; try discriminate.
    injection Hstep as <-.
    pose proof (tally_alter is_inactive (with_state rec_inactive) _ _ _ Er) as H.
    simpl in H. sane_fields.
    + unfold ref_newest in *. simpl. fold_alter. rewrite length_alter. exact Hr.
    + apply Forall_altered; [exact Ht|]. intros x Hx.
      rewrite Er in Hx. injection Hx as <-.
      rewrite Forall_forall in Ht.
      exact (Ht _ (list_elem_of_lookup_2 _ _ _ Er)).
    + intros _. apply snoc_not_nil.
  - (* Transcribed *)
    destruct (inflight st !! i) as [[]|] eqn:Ei; try discriminate.
    injection Hstep as <-. unfold onstop_transcribed.
    pose proof (tally_insert awaits_transcription _ _ _ AwaitGeneration Ei) as H1.
    pose proof (tally_insert awaits_generation _ _ _ AwaitGeneration Ei) as H2.
    pose proof (tally_delete awaits_transcription _ _ _ Ei) as H3.
    pose proof (tally_delete awaits_generation _ _ _ Ei) as H4.
    simpl in H1, H2, H3, H4.
    destruct (let* text := transcription_result fetched in _); sane_fields.
    intros _ Hnil. apply (f_equal length) in Hnil.
    rewrite length_insert in Hnil. apply lookup_lt_Some in Ei.
    simpl in Hnil. lia.
  - (* Generated *)
    destruct (inflight st !! i) as [[]|] eqn:Ei; try discriminate.
    injection Hstep as <-. unfold onstop_generated.
    pose proof (tally_delete awaits_transcription _ _ _ Ei) as H3.
    pose proof (tally_delete awaits_generation _ _ _ Ei) as H4.
    simpl in H3, H4.
    destruct (generation_result fetched) as [reply|]; simpl;
      [unfold speak; destruct (text_empty reply); simpl|]; sane_fields.
    intros _. apply snoc_not_nil.
  - (* UtteranceEnd *)
    destruct (utterances st) as [|u rest] eqn:Eu; [discriminate|].
    injection Hstep as <-. simpl in Hqu. sane_fields.
  - (* UtteranceError *)
    destruct (utterances st) as [|u rest] eqn:Eu; [discriminate|].
    injection Hstep as <-. simpl in Hqu. sane_fields.
  - (* MicUnusable *)
    on_failure Hstep Ehost; sane_fields.
    + unfold ref_newest. simpl. rewrite length_app. simpl.
      rewrite Nat.add_1_r. reflexivity.
    + apply Forall_app. split; [exact Ht|]. repeat constructor.
Qed.

Lemma reachable_sane st : reachable st -> sane st.
Proof.
  apply reachable_preserves.
  - intros ? ? ?. apply sane_step.
  - apply sane_initial.
Qed.

Lemma tally_le_length {A} (p : A -> bool) (l : list A) :
  (tally p l <= length l)%nat.
Proof.
  induction l as [|a l IH]; simpl; [lia|]. destruct (p a); simpl; lia.
Qed.

Lemma concat_nil_nonempty (chunks : list blob) :
  Forall (fun chunk : blob => chunk <> []) chunks ->
  concat chunks = [] -> chunks = [].
Proof.
  intros Hall Hnil. destruct chunks as [|c rest]; [reflexivity|].
  inversion Hall as [|? ? Hc _]; subst. simpl in Hnil.
  destruct c; [congruence | discriminate].
Qed.

(** A recorder that records and is no longer the newest is out of reach
    of every handler. *)
Lemma superseded_step st e st' r rec :
  ref_newest st ->
  recorders st !! r = Some rec -> rec_state rec = rec_recording ->
  (S r < length (recorders st))%nat ->
  step st e = Some (Return st') ->
  recorders st' !! r = Some rec /\ (S r < length (recorders st'))%nat.
Proof.
  intros Hnew Hr Hrec Hlt Hstep.
  destruct e as [|granted|r' data|r'|i fetched|i fetched| | |failure]; simpl in Hstep.
  - unfold handleButtonClick in Hstep.
    destruct (isPlaying st); [injection Hstep as <-; auto|].
    destruct (isRecording st) eqn:Erec; [|injection Hstep as <-; auto].
    unfold stopRecording in Hstep. rewrite Erec in Hstep.
    destruct (mediaRecorderRef st) as [r0|] eqn:Eref; [|injection Hstep as <-; auto].
    unfold recorder_stop in Hstep.
    destruct (recorders st !! r0) as [[[] live]|] eqn:Er0; try discriminate.
    simpl in Hstep. injection Hstep as <-. simpl. fold_alter.
    assert (r0 <> r) as Hne.
    { unfold ref_newest in Hnew. rewrite Eref in Hnew.
      destruct (length (recorders st)); [discriminate|].
      injection Hnew as ->. lia. }
    rewrite !lookup_alter_other by exact Hne. rewrite !length_alter. auto.
  - destruct (micRequests st) as [|n]; [discriminate|].
    injection Hstep as <-. destruct granted; simpl; [|auto]. fold_alter.
    rewrite alter_last, length_app. simpl. split; [|lia].
    rewrite lookup_app_l by lia. exact Hr.
  - on_chunk Hstep; auto.
  - destruct (recorders st !! r') as [[[] live]|] eqn:Er'; try discriminate.
    injection Hstep as <-. simpl. fold_alter.
    assert (r' <> r) as Hne.
    { intros ->. rewrite Er' in Hr. injection Hr as <-. discriminate. }
    rewrite lookup_alter_other by exact Hne. rewrite length_alter. auto.
  - destruct (inflight st !! i) as [[]|]; try discriminate.
    injection Hstep as <-. unfold onstop_transcribed.
    destruct (let* text := transcription_result fetched in _); auto.
  - destruct (inflight st !! i) as [[]|]; try discriminate.
    injection Hstep as <-. unfold onstop_generated.
    destruct (generation_result fetched) as [reply|]; simpl;
      [unfold speak; destruct (text_empty reply); simpl|]; auto.
  - on_utterance Hstep. auto.
  - on_utterance Hstep. auto.
  - on_failure Hstep Ehost; simpl; [auto|].
    pose proof (unstarted_lookup _ _ _ Ehost Hr). congruence.
Qed.

Lemma superseded_run es :
  forall st st' r rec,
    sane st ->
    recorders st !! r = Some rec -> rec_state rec = rec_recording ->
    (S r < length (recorders st))%nat ->
    run st es = Some st' ->
    recorders st' !! r = Some rec /\ (S r < length (recorders st'))%nat /\
    sane st'.
Proof.
  induction es as [|e es IH]; intros st st' r rec Hsane Hr Hrec Hlt Hrun;
    simpl in Hrun.
  - injection Hrun as <-. auto.
  - destruct (step st e) as [[mid|]|] eqn:Estep; try discriminate.
    destruct (superseded_step _ _ _ _ _ (sane_ref _ Hsane) Hr Hrec Hlt Estep)
      as [Hr' Hlt'].
    apply (IH mid st' r rec);
      [eapply sane_step; eassumption | exact Hr' | exact Hrec | exact Hlt'
      | exact Hrun].
Qed.

(** X7: in every run the error message is absent or one of the three
    fixed messages (microphone, processing, playback); none of them is
    empty, so the banner of lines 205-209 shows exactly the message that is
    set. *)
Theorem error_message_is_known (es : list event) (st : state)
    (Hrun : run initial es = Some st) :
  known_error (error st) /\ errorBanner st = error st.
Proof.
  pose proof (sane_error _ (reachable_sane st (ex_intro _ es Hrun))) as H.
  split; [exact H|]. unfold errorBanner.
  destruct H as [-> | [-> | [-> | ->]]]; reflexivity.
Qed.

Lemma error_message_is_known_witness :
  let es := (record_and_stop ++ [Transcribed 0 (Throw NetworkError)])%list in
  run initial es = Some (after es) /\
  errorBanner (after es) = Some processing_error.
Proof.
  intros es.
  assert (run initial es = Some (after es)) as Hrun by (vm_compute; reflexivity).
  split; [exact Hrun|].
  rewrite (proj2 (error_message_is_known es (after es) Hrun)).
  vm_compute; reflexivity.
Defined.

(** X4: in every run the chunk buffer only holds chunks of positive
    size, so the payload assembled from it is empty exactly when the
    buffer holds no chunk, and exactly then the request content is the
    empty string. *)
Theorem chunks_are_never_empty (es : list event) (st : state)
    (Hrun : run initial es = Some st) :
  Forall (fun chunk : blob => chunk <> []) (audioChunksRef st) /\
  (concat (audioChunksRef st) = [] <-> audioChunksRef st = []) /\
  (content (requestBody (concat (audioChunksRef st))) = "" <->
   audioChunksRef st = []).
Proof.
  pose proof (sane_chunks _ (reachable_sane st (ex_intro _ es Hrun))) as H.
  assert (concat (audioChunksRef st) = [] <-> audioChunksRef st = []) as Hiff.
  { split; [apply concat_nil_nonempty; exact H | intros ->; reflexivity]. }
  split; [exact H|]. split; [exact Hiff|].
  rewrite <- Hiff. split.
  - intros Hcontent. apply (f_equal String.length) in Hcontent.
    simpl in Hcontent. unfold btoa in Hcontent.
    rewrite base64_groups_length, binary_string_chars, !length_map in Hcontent.
    destruct (concat (audioChunksRef st)) as [|b rest]; [reflexivity|].
    exfalso. simpl in Hcontent.
    assert (1 <= (S (length rest) + 2) / 3)%nat
      by (apply Nat.div_le_lower_bound; lia).
    simpl in *. lia.
  - intros ->. reflexivity.
Qed.

Lemma chunks_are_never_empty_witness :
  let es := [Click; MicSettled true; DataAvailable 0 []; DataAvailable 0 [x01]] in
  run initial es = Some (after es) /\
  audioChunksRef (after es) = [[x01]] /\
  Forall (fun chunk : blob => chunk <> []) (audioChunksRef (after es)).
Proof.
  intros es.
  assert (run initial es = Some (after es)) as Hrun by (vm_compute; reflexivity).
  split; [exact Hrun|]. split; [vm_compute; reflexivity|].
  exact (proj1 (chunks_are_never_empty es (after es) Hrun)).
Defined.

(** X11: the ref always holds the recorder constructed last, and
    [stop()] is only ever called through the ref.  A recorder that is still
    recording when a later one is constructed is therefore out of reach:
    in every continuation it stays recording with its tracks live, and the
    ref never holds it again. *)
Theorem superseded_recorder_is_never_stopped
    (es : list event) (st : state) (r : nat) (rec : recorder)
    (Hrun : run initial es = Some st)
    (Hr : recorders st !! r = Some rec)
    (Hrecording : rec_state rec = rec_recording)
    (Hsuperseded : (S r < length (recorders st))%nat) :
  mediaRecorderRef st = Some (length (recorders st) - 1)%nat /\
  tracks_live rec = true /\
  forall more st',
    run st more = Some st' ->
    recorders st' !! r = Some rec /\ mediaRecorderRef st' <> Some r.
Proof.
  pose proof (reachable_sane st (ex_intro _ es Hrun)) as Hsane.
  split; [|split].
  - pose proof (sane_ref _ Hsane) as Hnew. unfold ref_newest in Hnew.
    destruct (length (recorders st)) as [|n]; [lia|].
    rewrite Hnew. f_equal. lia.
  - pose proof (sane_tracks _ Hsane) as Ht. rewrite Forall_forall in Ht.
    rewrite (Ht _ (list_elem_of_lookup_2 _ _ _ Hr)).
    unfold is_recording. rewrite Hrecording. reflexivity.
  - intros more st' Hmore.
    destruct (superseded_run more st st' r rec Hsane Hr Hrecording Hsuperseded Hmore)
      as (Hr' & Hlt & Hsane').
    split; [exact Hr'|].
    pose proof (sane_ref _ Hsane') as Hnew. unfold ref_newest in Hnew.
    rewrite Hnew. destruct (length (recorders st')) as [|n]; [discriminate|].
    intros [= ->]. lia.
Qed.

Lemma superseded_recorder_is_never_stopped_witness :
  let es := [Click; Click; MicSettled true; MicSettled true] in
  run initial es = Some (after es) /\
  recorders (after es) !! 0%nat =
    Some {| rec_state := rec_recording; tracks_live := true |} /\
  forall more st',
    run (after es) more = Some st' ->
    recorders st' !! 0%nat =
      Some {| rec_state := rec_recording; tracks_live := true |} /\
    mediaRecorderRef st' <> Some 0%nat.
Proof.
  intros es.
  assert (run initial es = Some (after es)) as Hrun by (vm_compute; reflexivity).
  split; [exact Hrun|]. split; [vm_compute; reflexivity|].
  apply (superseded_recorder_is_never_stopped es (after es) 0%nat
           {| rec_state := rec_recording; tracks_live := true |} Hrun).
  - vm_compute; reflexivity.
  - reflexivity.
  - vm_compute. lia.
Defined.

(** X12: in every run the tracks of a recorder are live exactly while
    it records, or for good when its [start()] threw: they are live from
    the construction of the recorder, they are ended by the same handler
    that stops it, and nothing ends them for a recorder that never
    started. *)
Theorem tracks_live_while_recording
    (es : list event) (st : state) (r : nat) (rec : recorder)
    (Hrun : run initial es = Some st)
    (Hr : recorders st !! r = Some rec) :
  tracks_live rec = true <->
  rec_state rec = rec_recording \/ rec_state rec = rec_unstarted.
Proof.
  pose proof (sane_tracks _ (reachable_sane st (ex_intro _ es Hrun))) as Ht.
  rewrite Forall_forall in Ht.
  rewrite (Ht _ (list_elem_of_lookup_2 _ _ _ Hr)).
  unfold is_recording, is_unstarted.
  destruct (rec_state rec); simpl; split; auto; try discriminate;
    intros [H | H]; discriminate.
Qed.

Lemma tracks_live_while_recording_witness :
  (let es := [Click; MicSettled true; Click] in
   run initial es = Some (after es) /\
   recorders (after es) !! 0%nat =
     Some {| rec_state := rec_stopping; tracks_live := false |} /\
   (false = true <->
    rec_stopping = rec_recording \/ rec_stopping = rec_unstarted)) /\
  (let es := [Click; MicUnusable StartThrows; Click; MicSettled false] in
   run initial es = Some (after es) /\
   recorders (after es) !! 0%nat =
     Some {| rec_state := rec_unstarted; tracks_live := true |} /\
   (true = true <->
    rec_unstarted = rec_recording \/ rec_unstarted = rec_unstarted)).
Proof.
  split; intros es.
  - assert (run initial es = Some (after es)) as Hrun by (vm_compute; reflexivity).
    split; [exact Hrun|]. split; [vm_compute; reflexivity|].
    apply (tracks_live_while_recording es (after es) 0%nat
             {| rec_state := rec_stopping; tracks_live := false |} Hrun).
    vm_compute; reflexivity.
  - assert (run initial es = Some (after es)) as Hrun by (vm_compute; reflexivity).
    split; [exact Hrun|]. split; [vm_compute; reflexivity|].
    apply (tracks_live_while_recording es (after es) 0%nat
             {| rec_state := rec_unstarted; tracks_live := true |} Hrun).
    vm_compute; reflexivity.
Defined.

(** X13: nothing is retried or repeated.  In every run there is
    exactly one recognition request per recorder that has reported its
    stop; the generation requests, together with the runs still waiting
    for their transcript, never outnumber the recognition requests; the
    texts spoken, together with the runs still waiting for their reply,
    never outnumber the generation requests; and the speech queue never
    holds more than was spoken. *)
Theorem one_request_per_stage (es : list event) (st : state)
    (Hrun : run initial es = Some st) :
  tally is_transcription_call (calls st) = tally is_inactive (recorders st) /\
  (tally is_transcription_call (calls st) <= length (recorders st))%nat /\
  (tally awaits_transcription (inflight st) + tally is_generation_call (calls st)
   <= tally is_transcription_call (calls st))%nat /\
  (tally awaits_generation (inflight st) + tally is_speak_call (calls st)
   <= tally is_generation_call (calls st))%nat /\
  (length (utterances st) <= tally is_speak_call (calls st))%nat.
Proof.
  pose proof (reachable_sane st (ex_intro _ es Hrun)) as Hsane.
  split; [symmetry; apply (sane_stopped _ Hsane)|]. split.
  - rewrite <- (sane_stopped _ Hsane). apply tally_le_length.
  - split; [apply (sane_generation _ Hsane)|].
    split; [apply (sane_speech _ Hsane) | apply (sane_queue _ Hsane)].
Qed.

Lemma one_request_per_stage_witness :
  run initial conversation = Some (after conversation) /\
  tally is_transcription_call (calls (after conversation)) = 1%nat /\
  (tally is_speak_call (calls (after conversation)) <=
   tally is_generation_call (calls (after conversation)))%nat.
Proof.
  assert (run initial conversation = Some (after conversation)) as Hrun
    by (vm_compute; reflexivity).
  split; [exact Hrun|]. split; [vm_compute; reflexivity|].
  destruct (one_request_per_stage conversation (after conversation) Hrun)
    as (_ & _ & _ & Hspeech & _). lia.
Defined.





(** ** What patient runs keep *)

Ltac settled_fields :=
  constructor; simpl; fold_alter;
  rewrite ?alter_last, ?tally_app, ?length_app; simpl;
  auto; try lia; try (intros; congruence).

Lemma length_zero_nil {A} (l : list A) : length l = 0%nat -> l = [].
Proof. destruct l; [reflexivity | discriminate]. Qed.

Lemma settled_step st e st' :
  settled st ->
  match e with Click => quiescent st | _ => true end = true ->
  step st e = Some (Return st') ->
  settled st'.
Proof.
  intros [Hex Hproc Hqueue Hrec] Hpatient Hstep.
  pose proof (exclusive_step _ _ _ Hex Hpatient Hstep) as Hex'.
  destruct Hex as [Hsum Hback].
  destruct e as [|granted|r data|r|i fetched|i fetched| | |failure]; simpl in Hstep.
  - apply quiescent_true in Hpatient as (Hmic & Hstop & Hin).
    unfold handleButtonClick in Hstep.
    destruct (isPlaying st) eqn:Eplay.
    { injection Hstep as <-. settled_fields. }
    destruct (isRecording st) eqn:Erec;
      [|injection Hstep as <-; settled_fields].
    unfold stopRecording in Hstep. rewrite Erec in Hstep.
    destruct (mediaRecorderRef st) as [r|];
      [|injection Hstep as <-; settled_fields].
    unfold recorder_stop in Hstep.
    destruct (recorders st !! r) as [[[] live]|] eqn:Er; try discriminate.
    simpl in Hstep. injection Hstep as <-.
    pose proof (alter_twice (with_state rec_stopping) end_tracks (recorders st) r)
      as Etwice.
    pose proof (tally_alter is_recording
                  (fun x => end_tracks (with_state rec_stopping x)) _ _ _ Er) as H.
    simpl in H. settled_fields. rewrite Etwice. lia.
  - destruct (micRequests st) as [|n] eqn:Emic; [discriminate|].
    injection Hstep as <-. destruct granted; settled_fields.
  - destruct (recorders st !! r) as [rec|]; [|discriminate].
    destruct (delivering rec); [|discriminate].
    injection Hstep as <-. unfold ondataavailable in *.
    destruct (0 <? length data)%nat; settled_fields.
  - destruct (recorders st !! r) as [[[] live]|] eqn:Er; try discriminate.
    injection Hstep as <-.
    pose proof (tally_alter is_recording (with_state rec_inactive) _ _ _ Er) as H.
    simpl in H. settled_fields.
  - destruct (inflight st !! i) as [[]|] eqn:Ei; try discriminate.
    injection Hstep as <-. unfold onstop_transcribed in *.
    pose proof (lookup_lt_Some _ _ _ Ei) as Hlen.
    pose proof (length_delete (inflight st) i (ex_intro _ _ Ei)) as Hdel.
    assert (inflight st <> []) as Hsome by (intros E; rewrite E in Hlen; simpl in Hlen; lia).
    destruct (let* text := transcription_result fetched in _); settled_fields.
    intros Hne. exfalso. apply Hne. apply length_zero_nil. lia.
  - destruct (inflight st !! i) as [[]|] eqn:Ei; try discriminate.
    injection Hstep as <-. unfold onstop_generated in *.
    pose proof (lookup_lt_Some _ _ _ Ei) as Hlen.
    pose proof (length_delete (inflight st) i (ex_intro _ _ Ei)) as Hdel.
    destruct (generation_result fetched) as [reply|]; simpl in *;
      [unfold speak in *; destruct (text_empty reply); simpl in *|];
      settled_fields;
      intros Hne; exfalso; apply Hne; apply length_zero_nil; lia.
  - destruct (utterances st) as [|u rest] eqn:Eu; [discriminate|].
    injection Hstep as <-. simpl in Hqueue. settled_fields.
  - destruct (utterances st) as [|u rest] eqn:Eu; [discriminate|].
    injection Hstep as <-. simpl in Hqueue. settled_fields.
  - on_failure Hstep Ehost; settled_fields.
Qed.

Lemma settled_initial : settled initial.
Proof.
  constructor; simpl; auto; try congruence. apply exclusive_initial.
Qed.

Lemma patient_run_settled es :
  forall st st',
    settled st -> patient st es = true -> run st es = Some st' -> settled st'.
Proof.
  induction es as [|e es IH]; intros st st' Hs Hpat Hrun; simpl in *.
  - congruence.
  - apply andb_true_iff in Hpat as [Hclick Hrest].
    destruct (step st e) as [[mid|]|] eqn:E; try discriminate.
    eapply IH; [|exact Hrest|exact Hrun]. eapply settled_step; eauto.
Qed.

Lemma tally_agree {A} (p q : A -> bool) (l : list A) :
  Forall (fun a => p a = q a) l -> tally p l = tally q l.
Proof.
  induction 1 as [|a l Ha _ IH]; simpl; [reflexivity | rewrite Ha, IH; reflexivity].
Qed.

Lemma settled_inflight st :
  settled st -> length (inflight st) = Nat.b2n (isProcessing st).
Proof.
  intros [[Hsum Hback] Hproc _ _].
  destruct (inflight st) as [|t rest] eqn:E.
  - destruct (isProcessing st); [exfalso; apply Hback; reflexivity | reflexivity].
  - rewrite Hproc by discriminate. simpl in *. lia.
Qed.

Lemma legal_step st e st' :
  settled st ->
  match e with Click => quiescent st | _ => true end = true ->
  step st e = Some (Return st') ->
  legal (phase_of st) (phase_of st') = true.
Proof.
  intros Hs Hpatient Hstep.
  pose proof (settled_inflight st Hs) as Hin.
  destruct Hs as [[Hsum _] _ Hqueue _].
  unfold phase_of.
  destruct e as [|granted|r data|r|i fetched|i fetched| | |failure]; simpl in Hstep.
  - apply quiescent_true in Hpatient as (Hmic & Hstop & Hnil).
    rewrite Hnil in Hin. simpl in Hin.
    unfold handleButtonClick in Hstep.
    destruct (isPlaying st) eqn:Eplay.
    { injection Hstep as <-. simpl.
      destruct (isProcessing st), (isRecording st); simpl in *;
        try reflexivity; lia. }
    destruct (isRecording st) eqn:Erec.
    + unfold stopRecording in Hstep. rewrite Erec in Hstep.
      destruct (mediaRecorderRef st) as [r|].
      * destruct (recorder_stop r st) as [st1|] eqn:Estop; [|discriminate].
        simpl in Hstep. injection Hstep as <-. simpl.
        unfold recorder_stop in Estop.
        destruct (recorders st !! r) as [[[] live]|]; try discriminate.
        injection Estop as <-. simpl. rewrite ?Eplay.
        destruct (isProcessing st); simpl in *; [discriminate | reflexivity].
      * injection Hstep as <-. rewrite ?Erec, ?Eplay.
        destruct (isProcessing st); reflexivity.
    + injection Hstep as <-. simpl. rewrite ?Erec, ?Eplay.
      destruct (isProcessing st); reflexivity.
  - destruct (micRequests st) as [|n] eqn:Emic; [discriminate|].
    injection Hstep as <-.
    destruct granted; simpl;
      destruct (isProcessing st), (isRecording st), (isPlaying st);
      simpl in *; try reflexivity; lia.
  - destruct (recorders st !! r) as [rec|]; [|discriminate].
    destruct (delivering rec); [|discriminate].
    injection Hstep as <-. unfold ondataavailable.
    destruct (0 <? length data)%nat; simpl;
      destruct (isProcessing st), (isRecording st), (isPlaying st); reflexivity.
  - destruct (recorders st !! r) as [[[] live]|] eqn:Er; try discriminate.
    injection Hstep as <-. simpl.
    pose proof (stopping_lookup _ _ _ Er eq_refl).
    destruct (isProcessing st), (isRecording st), (isPlaying st);
      simpl in *; try reflexivity; lia.
  - destruct (inflight st !! i) as [[]|] eqn:Ei; try discriminate.
    injection Hstep as <-. unfold onstop_transcribed.
    pose proof (lookup_lt_Some _ _ _ Ei) as Hlen.
    destruct (let* text := transcription_result fetched in _); simpl;
      destruct (isProcessing st), (isRecording st), (isPlaying st);
      simpl in *; try reflexivity; lia.
  - destruct (inflight st !! i) as [[]|] eqn:Ei; try discriminate.
    injection Hstep as <-. unfold onstop_generated.
    pose proof (lookup_lt_Some _ _ _ Ei) as Hlen.
    destruct (generation_result fetched) as [reply|]; simpl;
      [unfold speak; destruct (text_empty reply); simpl|];
      destruct (isProcessing st), (isRecording st), (isPlaying st);
      simpl in *; try reflexivity; lia.
  - destruct (utterances st) as [|u rest] eqn:Eu; [discriminate|].
    injection Hstep as <-. simpl.
    destruct (isProcessing st), (isRecording st), (isPlaying st);
      simpl in *; try reflexivity; lia.
  - destruct (utterances st) as [|u rest] eqn:Eu; [discriminate|].
    injection Hstep as <-. simpl.
    destruct (isProcessing st), (isRecording st), (isPlaying st);
      simpl in *; try reflexivity; lia.
  - on_failure Hstep Ehost; simpl;
      destruct (isProcessing st), (isRecording st), (isPlaying st);
      simpl in *; try reflexivity; lia.
Qed.

Lemma tally_live (rs : list recorder) :
  tally (fun r => is_recording r || is_unstarted r) rs =
  (tally is_recording rs + tally is_unstarted rs)%nat.
Proof.
  induction rs as [|[s live] rs IH]; simpl; [reflexivity|].
  rewrite IH. unfold is_recording, is_unstarted. destruct s; simpl; lia.
Qed.

(** X15: in a patient run every event moves the displayed phase along
    one of these edges or leaves it where it is: Idle to Recording, Idle
    to Processing, Recording to Idle, Processing to Speaking, Processing
    to Idle, Speaking to Idle.  In particular a stopped recording passes
    through Idle (all flags lowered) until the recorder reports its stop,
    and only then the phase is Processing. *)
Theorem patient_phases_move_legally (es : list event)
    (Hpatient : patient initial es = true) :
  forall n st st',
    run initial (take n es) = Some st ->
    run initial (take (S n) es) = Some st' ->
    legal (phase_of st) (phase_of st') = true.
Proof.
  intros n st st' Hrun Hnext.
  assert (settled st) as Hs.
  { eapply patient_run_settled; [apply settled_initial| |exact Hrun].
    apply patient_take. exact Hpatient. }
  destruct (es !! n) as [e|] eqn:En.
  - rewrite (take_S_r _ _ _ En), run_app, Hrun in Hnext. simpl in Hnext.
    destruct (step st e) as [[next|]|] eqn:Estep; try discriminate.
    injection Hnext as ->.
    assert (patient st [e] = true) as Hone.
    { eapply patient_app; [|exact Hrun].
      rewrite <- (take_S_r _ _ _ En). apply patient_take. exact Hpatient. }
    simpl in Hone. apply andb_true_iff in Hone as [Hclick _].
    eapply legal_step; eassumption.
  - apply lookup_ge_None in En.
    rewrite (take_ge es n), (take_ge es (S n)) in * by lia.
    assert (st' = st) as -> by congruence.
    destruct (phase_of st); reflexivity.
Qed.

Lemma patient_phases_move_legally_witness :
  patient initial conversation = true /\
  List.map (fun n => phase_of (after (take n conversation))) (seq 0 9) =
    [Idle; Idle; Recording; Idle; Idle; Processing; Processing; Speaking; Idle] /\
  legal (phase_of (after (take 4 conversation)))
        (phase_of (after (take 5 conversation))) = true.
Proof.
  assert (patient initial conversation = true) as Hpatient
    by (vm_compute; reflexivity).
  split; [exact Hpatient|]. split; [vm_compute; reflexivity|].
  apply (patient_phases_move_legally conversation Hpatient 4%nat);
    vm_compute; reflexivity.
Defined.

(** X16: in a patient run the flags count the work exactly, at every
    instant: the number of recorders that record is one when the
    recording flag is raised and zero otherwise; likewise the number of
    suspended [onstop] handlers for the processing flag and the length of
    the speech queue for the speaking flag.  The recorders with live
    tracks are the one that records, if any, and those whose [start()]
    threw. *)
Theorem patient_flags_count_the_work (es : list event) (n : nat) (st : state)
    (Hpatient : patient initial es = true)
    (Hrun : run initial (take n es) = Some st) :
  tally tracks_live (recorders st) =
    (Nat.b2n (isRecording st) + tally is_unstarted (recorders st))%nat /\
  tally is_recording (recorders st) = Nat.b2n (isRecording st) /\
  length (inflight st) = Nat.b2n (isProcessing st) /\
  length (utterances st) = Nat.b2n (isPlaying st).
Proof.
  assert (settled st) as Hs.
  { eapply patient_run_settled; [apply settled_initial| |exact Hrun].
    apply patient_take. exact Hpatient. }
  pose proof (reachable_sane st (ex_intro _ _ Hrun)) as Hsane.
  split; [|split; [|split]].
  - rewrite (tally_agree _ _ _ (sane_tracks _ Hsane)), tally_live.
    rewrite (settled_recording _ Hs). reflexivity.
  - apply (settled_recording _ Hs).
  - apply settled_inflight. exact Hs.
  - apply (settled_queue _ Hs).
Qed.

Lemma patient_flags_count_the_work_witness :
  patient initial conversation = true /\
  run initial (take 7 conversation) = Some (after (take 7 conversation)) /\
  length (utterances (after (take 7 conversation))) = 1%nat /\
  tally tracks_live (recorders (after (take 7 conversation))) = 0%nat.
Proof.
  assert (patient initial conversation = true) as Hpatient
    by (vm_compute; reflexivity).
  assert (run initial (take 7 conversation) = Some (after (take 7 conversation)))
    as Hrun by (vm_compute; reflexivity).
  destruct (patient_flags_count_the_work conversation 7%nat _ Hpatient Hrun)
    as (Hmic & _ & _ & Hqueue).
  split; [exact Hpatient|]. split; [exact Hrun|].
  split; [rewrite Hqueue | rewrite Hmic]; vm_compute; reflexivity.
Defined.

(** ** The audio that is transcribed *)

Lemma concat_kept (ds : list blob) : concat (kept ds) = concat ds.
Proof.
  induction ds as [|d ds IH]; simpl; [reflexivity|].
  destruct d as [|b d]; simpl; [exact IH | rewrite IH; reflexivity].
Qed.

Lemma chunks_delivered (ds : list blob) :
  forall st r rec,
    recorders st !! r = Some rec -> delivering rec = true ->
    run st (chunks_of r ds) =
    Some (set_audioChunksRef (audioChunksRef st ++ kept ds) st).
Proof.
  induction ds as [|d ds IH]; intros st r rec Hr Hdel; simpl.
  - rewrite app_nil_r. destruct st; reflexivity.
  - rewrite Hr, Hdel. unfold ondataavailable.
    destruct (0 <? length d)%nat.
    + rewrite (IH _ r rec) by assumption. simpl.
      rewrite <- app_assoc. reflexivity.
    + apply (IH _ r rec); assumption.
Qed.

Lemma run_one st e st' :
  step st e = Some (Return st') -> run st [e] = Some st'.
Proof. intros H. simpl. rewrite H. reflexivity. Qed.

(** What [onstop] sends is the concatenation of the buffer. *)
Lemma recorder_stopped_call st r live :
  recorders st !! r = Some {| rec_state := rec_stopping; tracks_live := live |} ->
  exists st',
    step st (RecorderStopped r) = Some (Return st') /\
    calls st' =
      (calls st ++ [CallTranscription (requestBody (concat (audioChunksRef st)))])%list /\
    isProcessing st' = true /\ isRecording st' = isRecording st /\
    inflight st' = (inflight st ++ [AwaitTranscription])%list.
Proof.
  intros Hr. simpl. rewrite Hr. eexists. split; [reflexivity|]. repeat split.
Qed.

Lemma stop_recording_keeps_buffer st st' :
  stopRecording st = Return st' -> audioChunksRef st' = audioChunksRef st.
Proof.
  unfold stopRecording, recorder_stop.
  destruct (mediaRecorderRef st) as [r|]; [|intros [= <-]; reflexivity].
  destruct (isRecording st); [|intros [= <-]; reflexivity].
  destruct (recorders st !! r) as [[[] live]|]; simpl; try discriminate.
  intros [= <-]. reflexivity.
Qed.

(** X3: starting from any state in which a press starts a recording,
    if the microphone is granted, the new recorder hands over the chunks
    [ds1], the user presses again, the recorder hands over [ds2] and then
    fires [stop], the request sent for transcription carries exactly the
    concatenation of [ds1] and [ds2] in that order (chunks of size zero
    contribute nothing), and the session is left processing, not
    recording. *)
Theorem recording_payload_is_all_chunks
    (st : state) (ds1 ds2 : list blob)
    (Hplay : isPlaying st = false) (Hrec : isRecording st = false) :
  let r := length (recorders st) in
  exists st',
    run st ([Click; MicSettled true] ++ chunks_of r ds1 ++ [Click] ++
            chunks_of r ds2 ++ [RecorderStopped r]) = Some st' /\
    calls st' =
      (calls st ++ [CallTranscription (requestBody (concat (ds1 ++ ds2)))])%list /\
    isProcessing st' = true /\ isRecording st' = false.
Proof.
  intros r.
  set (s2 := startRecording_granted (set_micRequests (micRequests st) (startRecording st))).
  assert (run st [Click; MicSettled true] = Some s2) as Hgrant.
  { simpl. unfold handleButtonClick. rewrite Hplay, Hrec. reflexivity. }
  assert (recorders s2 !! r = Some {| rec_state := rec_recording; tracks_live := true |})
    as Hr2.
  { subst s2. simpl. fold_alter. rewrite alter_last. apply lookup_last. }
  set (s3 := set_audioChunksRef (audioChunksRef s2 ++ kept ds1) s2).
  pose proof (chunks_delivered ds1 s2 r _ Hr2 eq_refl) as Hchunks1. fold s3 in Hchunks1.
  destruct (stop_recording_effect s3) as (r' & live & s4 & Href & Hr3 & Hstop & Hr4 & Hrec4 & Hplay4 & _ & _ & _ & _ & _ & Hcalls4).
  { intros _. exists r, {| rec_state := rec_recording; tracks_live := true |}.
    split; [reflexivity|]. split; [exact Hr2 | reflexivity]. }
  { reflexivity. }
  assert (r' = r) as ->
    by (unfold s3, s2 in Href; simpl in Href; injection Href as <-; reflexivity).
  assert (step s3 Click = Some (Return s4)) as Hclick.
  { simpl. unfold handleButtonClick. simpl. rewrite Hplay, Hstop. reflexivity. }
  assert (audioChunksRef s4 = kept ds1) as Hbuf4.
  { rewrite (stop_recording_keeps_buffer _ _ Hstop). reflexivity. }
  pose proof (chunks_delivered ds2 s4 r _ Hr4 eq_refl) as Hchunks2.
  set (s5 := set_audioChunksRef (audioChunksRef s4 ++ kept ds2) s4) in Hchunks2.
  destruct (recorder_stopped_call s5 r false Hr4)
    as (st' & Hstopped & Hcalls & Hproc & Hrec5 & _).
  exists st'. split.
  - rewrite run_app, Hgrant, run_app, Hchunks1.
    rewrite run_app, (run_one _ _ _ Hclick), run_app, Hchunks2.
    apply run_one. exact Hstopped.
  - split; [|split; [exact Hproc | rewrite Hrec5; exact Hrec4]].
    rewrite Hcalls. simpl. rewrite Hcalls4, Hbuf4. simpl.
    rewrite concat_app, !concat_kept, <- concat_app. reflexivity.
Qed.

Lemma recording_payload_is_all_chunks_witness :
  exists st',
    run initial ([Click; MicSettled true] ++ chunks_of 0 [[x01]; []] ++ [Click] ++
                 chunks_of 0 [[x02; x03]] ++ [RecorderStopped 0]) = Some st' /\
    calls st' = [CallTranscription (requestBody [x01; x02; x03])].
Proof.
  destruct (recording_payload_is_all_chunks initial [[x01]; []] [[x02; x03]]
              eq_refl eq_refl) as (st' & Hrun & Hcalls & _).
  exists st'. split; [exact Hrun | exact Hcalls].
Defined.

(** X5: the chunk buffer is shared by all recorders.  When a microphone
    request is granted while an earlier recorder still owes its [stop]
    event, what that recorder had accumulated is dropped: the request sent
    when it reports its stop carries only the chunks [ds] it delivers
    after the grant, whatever the buffer held before. *)
Theorem granted_recording_resets_shared_buffer
    (st : state) (r : nat) (live : bool) (ds : list blob)
    (Hstopping : recorders st !! r =
                   Some {| rec_state := rec_stopping; tracks_live := live |})
    (Hpending : (0 < micRequests st)%nat) :
  exists st',
    run st ([MicSettled true] ++ chunks_of r ds ++ [RecorderStopped r]) = Some st' /\
    calls st' =
      (calls st ++ [CallTranscription (requestBody (concat ds))])%list.
Proof.
  destruct (micRequests st) as [|n] eqn:Emic; [lia|].
  set (s1 := startRecording_granted (set_micRequests n st)).
  assert (step st (MicSettled true) = Some (Return s1)) as Hgrant
    by (simpl; rewrite Emic; reflexivity).
  pose proof (lookup_lt_Some _ _ _ Hstopping) as Hlt.
  assert (recorders s1 !! r =
            Some {| rec_state := rec_stopping; tracks_live := live |}) as Hr1.
  { unfold s1. simpl. fold_alter. rewrite lookup_alter_other by lia.
    rewrite lookup_app_l by exact Hlt. exact Hstopping. }
  pose proof (chunks_delivered ds s1 r _ Hr1 eq_refl) as Hchunks.
  set (s2 := set_audioChunksRef (audioChunksRef s1 ++ kept ds) s1) in Hchunks.
  destruct (recorder_stopped_call s2 r live Hr1) as (st' & Hstop & Hcalls & _).
  exists st'. split.
  - rewrite run_app, (run_one _ _ _ Hgrant), run_app, Hchunks.
    apply run_one. exact Hstop.
  - rewrite Hcalls. unfold s2, s1. simpl. rewrite concat_kept. reflexivity.
Qed.

Lemma granted_recording_resets_shared_buffer_witness :
  let st := after [Click; MicSettled true; DataAvailable 0 [x01; x02]; Click; Click] in
  audioChunksRef st = [[x01; x02]] /\
  exists st',
    run st ([MicSettled true] ++ chunks_of 0 [] ++ [RecorderStopped 0]) = Some st' /\
    calls st' = [CallTranscription (requestBody [])].
Proof.
  intros st. split; [vm_compute; reflexivity|].
  destruct (granted_recording_resets_shared_buffer st 0%nat false [])
    as (st' & Hrun & Hcalls).
  - vm_compute; reflexivity.
  - vm_compute. lia.
  - exists st'. split; [exact Hrun | exact Hcalls].
Defined.

Lemma insert_last {A} (l : list A) (x y : A) :
  <[length l := y]> (l ++ [x])%list = (l ++ [y])%list.
Proof. induction l as [|a l IH]; simpl; [reflexivity | f_equal; exact IH]. Qed.

Lemma delete_last {A} (l : list A) (x : A) :
  delete (length l) (l ++ [x])%list = l.
Proof. induction l as [|a l IH]; simpl; [reflexivity | f_equal; exact IH]. Qed.

(** X6: the three pieces of [onstop] compose.  When a recorder reports
    its stop, the recognition request yields a truthy [text] and the
    generation request yields [reply], both of them values that have a
    text, exactly three things are asked of the collaborators, in this
    order: the transcription of the buffered audio, a reply to [text],
    and the speaking of [reply]; afterwards the speaking flag is raised,
    the processing flag is lowered, the error message is untouched and no
    handler of this run is left suspended. *)
Theorem pipeline_speaks_the_reply
    (st : state) (r : nat) (live : bool)
    (fetched1 fetched2 : completion response) (text reply : value)
    (Hstopping : recorders st !! r =
                   Some {| rec_state := rec_stopping; tracks_live := live |})
    (Htext : transcription_result fetched1 = Return text)
    (Htruthy : truthy text = true)
    (Hprompt : has_text text = true)
    (Hreply : generation_result fetched2 = Return reply)
    (Hspeech : has_text reply = true) :
  let i := length (inflight st) in
  exists st',
    run st [RecorderStopped r; Transcribed i fetched1; Generated i fetched2] =
      Some st' /\
    calls st' =
      (calls st ++
       [CallTranscription (requestBody (concat (audioChunksRef st)));
        CallGeneration (generateBody text); CallSpeak reply])%list /\
    utterances st' = (utterances st ++ [reply])%list /\
    isPlaying st' = true /\ isProcessing st' = false /\
    error st' = error st /\ inflight st' = inflight st.
Proof.
  intros i. subst i.
  set (s1 := onstop (set_recorders
                       (alter (with_state rec_inactive) r (recorders st)) st)).
  assert (step st (RecorderStopped r) = Some (Return s1)) as H1
    by (simpl; rewrite Hstopping; reflexivity).
  assert (inflight s1 = (inflight st ++ [AwaitTranscription])%list) as Hin1
    by reflexivity.
  set (s2 := set_inflight (<[length (inflight st) := AwaitGeneration]> (inflight s1))
               (record_call (CallGeneration (generateBody text)) s1)).
  assert (step s1 (Transcribed (length (inflight st)) fetched1) = Some (Return s2))
    as H2.
  { destruct (has_text_true _ Hprompt) as [empty Hconv].
    unfold step. rewrite Hin1, lookup_last. unfold onstop_transcribed.
    rewrite Htext. simpl. rewrite Htruthy. simpl. rewrite Hconv. reflexivity. }
  assert (inflight s2 = (inflight st ++ [AwaitGeneration])%list) as Hin2.
  { unfold s2. simpl. apply insert_last. }
  set (s3 := onstop_finally
               (set_utterances (utterances s2 ++ [reply])
                  (record_call (CallSpeak reply)
                     (setIsPlaying true
                        (set_inflight
                           (delete (length (inflight st)) (inflight s2)) s2))))).
  assert (step s2 (Generated (length (inflight st)) fetched2) = Some (Return s3))
    as H3.
  { destruct (has_text_true _ Hspeech) as [empty Hconv].
    unfold step. rewrite Hin2, lookup_last. unfold onstop_generated.
    rewrite Hreply. simpl. unfold speak. rewrite Hconv. reflexivity. }
  exists s3. split.
  - change [RecorderStopped r; Transcribed (length (inflight st)) fetched1;
            Generated (length (inflight st)) fetched2]
      with ([RecorderStopped r] ++ [Transcribed (length (inflight st)) fetched1] ++
            [Generated (length (inflight st)) fetched2])%list.
    rewrite run_app, (run_one _ _ _ H1), run_app, (run_one _ _ _ H2).
    apply run_one. exact H3.
  - unfold s3, s2, s1. simpl.
    rewrite insert_last, delete_last, <- !app_assoc. repeat split.
Qed.

Lemma pipeline_speaks_the_reply_witness :
  let st := after [Click; MicSettled true; DataAvailable 0 [x01]; Click] in
  exists st',
    run st [RecorderStopped 0; Transcribed 0 (ok_json heard_hello);
            Generated 0 (ok_json reply_hi)] = Some st' /\
    utterances st' = [Str "Hi there"] /\ isPlaying st' = true.
Proof.
  intros st.
  destruct (pipeline_speaks_the_reply st 0%nat false (ok_json heard_hello)
              (ok_json reply_hi) (Str "hello") (Str "Hi there"))
    as (st' & Hrun & _ & Hutt & Hplay & _).
  - vm_compute; reflexivity.
  - reflexivity.
  - reflexivity.
  - reflexivity.
  - reflexivity.
  - reflexivity.
  - exists st'. split; [exact Hrun|]. split; [exact Hutt | exact Hplay].
Defined.

(** ** Failures of the clients *)

Lemma transcription_success_needs_ok fetched v :
  transcription_result fetched = Return v ->
  exists r data, fetched = Return r /\ ok r = true /\ json r = Return data.
Proof.
  unfold transcription_result, try_rethrow.
  destruct fetched as [r|e]; simpl; [|discriminate].
  destruct (ok r) eqn:Eok; simpl; [|destruct (json r); discriminate].
  destruct (json r) as [data|e] eqn:Ejson; simpl; [|discriminate].
  intros _. exists r, data. auto.
Qed.

Lemma generation_success_needs_ok fetched v :
  generation_result fetched = Return v ->
  exists r data, fetched = Return r /\ ok r = true /\ json r = Return data.
Proof.
  unfold generation_result, try_rethrow.
  destruct fetched as [r|e]; simpl; [|discriminate].
  destruct (ok r) eqn:Eok; simpl; [|destruct (json r); discriminate].
  destruct (json r) as [data|e] eqn:Ejson; simpl; [|discriminate].
  intros _. exists r, data. auto.
Qed.

(** X2: whatever goes wrong inside a client, the caller sees one fixed
    error: the only exception [convertSpeechToText] throws is "Failed to
    convert speech to text" and the only one [getGeminiResponse] throws is
    "Failed to get AI response"; the payload of a failed status is logged,
    not carried.  Both clients throw whenever the request does not settle
    with a success status and a body that parses. *)
Theorem clients_fail_with_fixed_errors
    (listen : RecognizeRequest -> completion response)
    (generate : GenerateRequest -> completion response)
    (audioBlob : blob) (text : value) :
  (forall e, convertSpeechToText listen audioBlob = Throw e -> e = stt_failure) /\
  (forall e, getGeminiResponse generate text = Throw e -> e = ai_failure) /\
  ((forall r, listen (requestBody audioBlob) = Return r ->
              ok r = false \/ exists e, json r = Throw e) ->
   convertSpeechToText listen audioBlob = Throw stt_failure) /\
  ((forall r, generate (generateBody text) = Return r ->
              ok r = false \/ exists e, json r = Throw e) ->
   getGeminiResponse generate text = Throw ai_failure).
Proof.
  unfold convertSpeechToText.
  split; [intros e; apply transcription_result_throws|].
  split; [intros e; apply getGeminiResponse_throws|]. split.
  - intros Hbad.
    destruct (transcription_result (listen (requestBody audioBlob))) as [v|e] eqn:E.
    + apply transcription_success_needs_ok in E as (r & data & Hr & Hok & Hjson).
      destruct (Hbad r Hr) as [Hno | [e He]]; congruence.
    + rewrite (transcription_result_throws _ _ E). reflexivity.
  - intros Hbad.
    destruct (getGeminiResponse generate text) as [v|e] eqn:E.
    + apply getGeminiResponse_returns in E as [_ E].
      apply generation_success_needs_ok in E as (r & data & Hr & Hok & Hjson).
      destruct (Hbad r Hr) as [Hno | [e He]]; congruence.
    + rewrite (getGeminiResponse_throws _ _ _ E). reflexivity.
Qed.

Lemma clients_fail_with_fixed_errors_witness :
  let quota :=
    Return {| ok := false; json := Return (Obj [("error", Str "quota")]) |} in
  convertSpeechToText (fun _ => quota) [] = Throw stt_failure /\
  getGeminiResponse (fun _ => Throw NetworkError) (Str "hello") = Throw ai_failure.
Proof.
  intros quota.
  destruct (clients_fail_with_fixed_errors
              (fun _ => quota) (fun _ => Throw NetworkError) [] (Str "hello"))
    as (_ & _ & Hlisten & Hgenerate).
  split.
  - apply Hlisten. intros r [= <-]. left. reflexivity.
  - apply Hgenerate. intros r Hr. discriminate.
Defined.

(** ** The button and the messages *)

(** X17: in every state the label and the icon of the button name the
    action a press takes: "Stop Response" with the square exactly when the
    press cancels the playback, "Stop Recording" with the microphone
    exactly when it stops the recording, "Start Recording" with the
    speaker exactly when it requests the microphone. *)
Theorem label_names_the_action (st : state) :
  (ariaLabel st = "Stop Response" /\ buttonIcon st = Square /\
   isPlaying st = true /\
   step st Click = Some (Return (stopSpeaking st))) \/
  (ariaLabel st = "Stop Recording" /\ buttonIcon st = Mic /\
   isPlaying st = false /\ isRecording st = true /\
   step st Click = Some (stopRecording st)) \/
  (ariaLabel st = "Start Recording" /\ buttonIcon st = Speaker /\
   isPlaying st = false /\ isRecording st = false /\
   step st Click = Some (Return (startRecording st))).
Proof.
  unfold ariaLabel, buttonIcon. simpl. unfold handleButtonClick.
  destruct (isPlaying st); [left; repeat split|].
  destruct (isRecording st); [right; left | right; right]; repeat split.
Qed.

(** X18: when at most one flag is raised, colour, label, icon,
    animation and status text all show the same phase; Processing differs
    from Idle only by the pulse and the status text, the button still
    reads "Start Recording".  In general the red colour and the label
    "Stop Recording" go together in every state except those with both the
    recording and the speaking flag raised. *)
Theorem presentation_agrees_when_exclusive (st : state) :
  ((raised st <= 1)%nat ->
   match phase_of st with
   | Idle =>
       buttonColor st = "bg-blue-500" /\ ariaLabel st = "Start Recording" /\
       buttonIcon st = Speaker /\ buttonAnimation st = "" /\
       statusText st = "Press to speak"
   | Recording =>
       buttonColor st = "bg-red-500" /\ ariaLabel st = "Stop Recording" /\
       buttonIcon st = Mic /\ buttonAnimation st = "" /\
       statusText st = "Listening..."
   | Processing =>
       buttonColor st = "bg-blue-500" /\ ariaLabel st = "Start Recording" /\
       buttonIcon st = Speaker /\ buttonAnimation st = "animate-pulse" /\
       statusText st = "Processing..."
   | Speaking =>
       buttonColor st = "bg-green-500" /\ ariaLabel st = "Stop Response" /\
       buttonIcon st = Square /\ buttonAnimation st = "" /\
       statusText st = "Speaking... (click to stop)"
   end) /\
  ((buttonColor st = "bg-red-500" <-> ariaLabel st = "Stop Recording") <->
   ~ (isRecording st = true /\ isPlaying st = true)).
Proof.
  unfold raised, statusText, phase_of, buttonColor, ariaLabel, buttonIcon,
    buttonAnimation.
  destruct (isRecording st), (isPlaying st), (isProcessing st); simpl;
    (split; [intros H; try lia; repeat split | intuition congruence]).
Qed.

Lemma presentation_agrees_when_exclusive_witness :
  let st := after [Click; MicSettled true] in
  (raised st <= 1)%nat /\
  buttonColor st = "bg-red-500" /\ ariaLabel st = "Stop Recording" /\
  statusText st = "Listening...".
Proof.
  intros st.
  assert (raised st <= 1)%nat as Hraised by (vm_compute; lia).
  split; [exact Hraised|].
  pose proof (proj1 (presentation_agrees_when_exclusive st) Hraised) as H.
  change (phase_of st) with Recording in H.
  destruct H as (Hcolor & Hlabel & _ & _ & Hstatus).
  split; [exact Hcolor|]. split; [exact Hlabel | exact Hstatus].
Defined.

(** X8: one event only clears the error message: a microphone request
    that is granted and whose recorder is constructed and started.  That
    event always clears it; a request that is rejected, or granted
    without the recorder starting, sets the microphone message; no other
    event turns a message into none, and a press never changes the
    message at all. *)
Theorem error_stays_until_recorder_starts (st st' : state) (e : event)
    (Hstep : step st e = Some (Return st')) :
  (e = MicSettled true -> error st' = None) /\
  (e <> MicSettled true -> error st' = None -> error st = None) /\
  (e = Click -> error st' = error st) /\
  ((e = MicSettled false \/ exists failure, e = MicUnusable failure) ->
   error st' = Some mic_error).
Proof.
  destruct e as [|granted|r data|r|i fetched|i fetched| | |failure]; simpl in Hstep.
  - split; [discriminate|].
    assert (error st' = error st) as Hsame.
    { unfold handleButtonClick in Hstep.
      destruct (isPlaying st); [injection Hstep as <-; reflexivity|].
      destruct (isRecording st) eqn:Erec; [|injection Hstep as <-; reflexivity].
      unfold stopRecording in Hstep. rewrite Erec in Hstep.
      destruct (mediaRecorderRef st) as [r|]; [|injection Hstep as <-; reflexivity].
      unfold recorder_stop in Hstep.
      destruct (recorders st !! r) as [[[] live]|]; try discriminate.
      simpl in Hstep. injection Hstep as <-. reflexivity. }
    split; [intros _; congruence|]. split; [intros _; exact Hsame|].
    intros [H | [failure H]]; discriminate.
  - destruct (micRequests st) as [|n]; [discriminate|].
    injection Hstep as <-. destruct granted; simpl.
    + split; [reflexivity|]. split; [congruence|]. split; [discriminate|].
      intros [H | [failure H]]; discriminate.
    + split; [discriminate|]. split; [discriminate|]. split; [discriminate|].
      reflexivity.
  - split; [discriminate|]. split; [|split; [discriminate|]].
    + on_chunk Hstep; auto.
    + intros [H | [failure H]]; discriminate.
  - split; [discriminate|]. split; [|split; [discriminate|]].
    + destruct (recorders st !! r) as [[[] live]|]; try discriminate.
      injection Hstep as <-. auto.
    + intros [H | [failure H]]; discriminate.
  - split; [discriminate|]. split; [|split; [discriminate|]].
    + destruct (inflight st !! i) as [[]|]; try discriminate.
      injection Hstep as <-. unfold onstop_transcribed.
      destruct (let* text := transcription_result fetched in _); simpl; auto.
      discriminate.
    + intros [H | [failure H]]; discriminate.
  - split; [discriminate|]. split; [|split; [discriminate|]].
    + destruct (inflight st !! i) as [[]|]; try discriminate.
      injection Hstep as <-. unfold onstop_generated.
      destruct (generation_result fetched) as [reply|]; simpl;
        [unfold speak; destruct (text_empty reply); simpl|];
        auto; discriminate.
    + intros [H | [failure H]]; discriminate.
  - split; [discriminate|]. split; [|split; [discriminate|]].
    + on_utterance Hstep. auto.
    + intros [H | [failure H]]; discriminate.
  - split; [discriminate|]. split; [|split; [discriminate|]].
    + on_utterance Hstep. simpl. discriminate.
    + intros [H | [failure H]]; discriminate.
  - split; [discriminate|]. split; [|split; [discriminate|]].
    + on_failure Hstep Ehost; simpl; discriminate.
    + intros _. on_failure Hstep Ehost; reflexivity.
Qed.

Lemma error_stays_until_recorder_starts_witness :
  (let st := after [Click; MicSettled false] in
   error st = Some mic_error /\
   exists st', step st Click = Some (Return st') /\ error st' = Some mic_error) /\
  (let st := after [Click] in
   exists st',
     step st (MicUnusable ConstructorThrows) = Some (Return st') /\
     error st' = Some mic_error).
Proof.
  split; intros st.
  - split; [vm_compute; reflexivity|].
    exists (startRecording st).
    assert (step st Click = Some (Return (startRecording st))) as Hstep
      by (vm_compute; reflexivity).
    split; [exact Hstep|].
    rewrite (proj1 (proj2 (proj2 (error_stays_until_recorder_starts _ _ _ Hstep)))
               eq_refl).
    vm_compute; reflexivity.
  - eexists. 
    assert (step st (MicUnusable ConstructorThrows) =
              Some (Return (startRecording_failed ConstructorThrows initial)))
      as Hstep by (vm_compute; reflexivity).
    split; [exact Hstep|].
    apply (proj2 (proj2 (proj2 (error_stays_until_recorder_starts _ _ _ Hstep)))).
    right. exists ConstructorThrows. reflexivity.
Defined.

(** X14: a press cannot cancel a pipeline run: whichever of its three
    actions it takes, the suspended handlers, the requests made so far,
    the processing flag, the chunk buffer and the ref are left as they
    were. *)
Theorem press_leaves_runs_in_flight (st st' : state)
    (Hstep : step st Click = Some (Return st')) :
  inflight st' = inflight st /\ calls st' = calls st /\
  isProcessing st' = isProcessing st /\
  audioChunksRef st' = audioChunksRef st /\
  mediaRecorderRef st' = mediaRecorderRef st.
Proof.
  simpl in Hstep. unfold handleButtonClick in Hstep.
  destruct (isPlaying st); [injection Hstep as <-; repeat split|].
  destruct (isRecording st) eqn:Erec; [|injection Hstep as <-; repeat split].
  unfold stopRecording in Hstep. rewrite Erec in Hstep.
  destruct (mediaRecorderRef st) as [r|] eqn:Eref; [|injection Hstep as <-; auto].
  unfold recorder_stop in Hstep.
  destruct (recorders st !! r) as [[[] live]|]; try discriminate.
  simpl in Hstep. injection Hstep as <-. simpl. auto.
Qed.

Lemma press_leaves_runs_in_flight_witness :
  let st := after record_and_stop in
  inflight st = [AwaitTranscription] /\
  exists st', step st Click = Some (Return st') /\
              inflight st' = [AwaitTranscription].
Proof.
  intros st. split; [vm_compute; reflexivity|].
  assert (step st Click = Some (Return (startRecording st))) as Hstep
    by (vm_compute; reflexivity).
  exists (startRecording st). split; [exact Hstep|].
  rewrite (proj1 (press_leaves_runs_in_flight _ _ Hstep)).
  vm_compute; reflexivity.
Defined.

(** ** Values that have no text *)

(** X19: a value that has no text ends the run at the point where the
    host would have to convert it.  The Response Client fails on such a
    text before any request is sent, and [speak] throws on it before
    anything is queued; so a transcript without a text, like a reply
    without one, leaves the run on the failure path, with the generic
    error set and nothing more asked of any collaborator. *)
Theorem value_without_text_fails_the_run
    (st : state) (i : nat) (fetched : completion response) (v : value)
    (Hnone : has_text v = false) :
  (forall fetch, getGeminiResponse fetch v = Throw ai_failure) /\
  (exists e, speak v st = Throw e) /\
  (inflight st !! i = Some AwaitTranscription ->
   transcription_result fetched = Return v ->
   exists st', step st (Transcribed i fetched) = Some (Return st') /\
               failed_run st i st') /\
  (inflight st !! i = Some AwaitGeneration ->
   generation_result fetched = Return v ->
   exists st', step st (Generated i fetched) = Some (Return st') /\
               failed_run st i st').
Proof.
  split; [intros fetch; apply getGeminiResponse_unsent; exact Hnone|].
  split; [|split].
  - destruct (has_text_false _ Hnone) as [e He]. exists e.
    unfold speak. rewrite He. reflexivity.
  - intros Htask Hres. eapply transcribed_without_text; eassumption.
  - intros Htask Hres. eapply generated_without_text; eassumption.
Qed.

Lemma value_without_text_fails_the_run_witness :
  let odd := Obj [("toString", Str "hello")] in
  let heard :=
    ok_json (Obj [("results",
                   Arr [Obj [("alternatives",
                              Arr [Obj [("transcript", odd)]])]])]) in
  let st := after record_and_stop in
  truthy odd = true /\ text_empty odd = Throw TypeError /\
  transcription_result heard = Return odd /\
  exists st',
    step st (Transcribed 0 heard) = Some (Return st') /\
    failed_run st 0 st' /\ calls st' = [CallTranscription (requestBody [])].
Proof.
  intros odd heard st. do 3 (split; [reflexivity|]).
  destruct (value_without_text_fails_the_run st 0%nat heard odd eq_refl)
    as (_ & _ & Hfails & _).
  destruct Hfails as (st' & Hstep & Hfail); [vm_compute; reflexivity | reflexivity |].
  exists st'. split; [exact Hstep|]. split; [exact Hfail|].
  destruct Hfail as (_ & _ & _ & _ & Hcalls & _). rewrite Hcalls.
  vm_compute; reflexivity.
Defined.
